(** * dommit: the reactive orchestrator of [lib/index.js]

    A shallow embedding of the [Reactive] constructor and of its prototype
    methods ([render], [sub], [unsub], [get], [set], [_bind], [bind],
    [destroy], [use], [subview]), followed by the properties of the
    specification that concern them.

    Conventions of the embedding.
    - JavaScript values are the inductive [value]; objects and functions are
      references, so two of them are equal exactly when they are the same
      object.
    - Plain objects that the code shares by reference (the binding registry,
      the view delegate) live in a heap; an orchestrator holds their
      addresses.
    - An object is the list of its own enumerable properties in the order
      they were added; [obj_keys] is [Object.keys], which lists the names
      that are array indices first, in ascending numeric order, and then
      the other names in the order they were added.
    - Collaborators that are [require]d but are not part of [lib/index.js]
      (the adapter, the emitter, [walk], [Binding], the interpolation
      bindings, [utils], [domify], the built-in bindings) are interfaces:
      a class for the adapter, a class [Host] for the others.
    - What the orchestrator does to its collaborators is recorded in a trace
      of [event]s, so that order and multiplicity of calls can be stated. *)

From stdpp Require Import base option list strings gmap sorting.
From Stdlib Require Import ZArith Ascii.
From Equations Require Import Equations.

Set Warnings "-register-all".

Module Reactive.

(** ** Values and plain objects *)

Inductive value : Type :=
| VUndefined
| VNull
| VBool (b : bool)
| VNum (n : Z)
| VStr (s : string)
| VObj (l : nat)
| VFun (f : nat).

#[global] Instance value_eq_dec : EqDecision value.
Proof. solve_decision. Defined.

(** JavaScript's ToBoolean on the values of the model. *)
Definition truthy (v : value) : bool :=
  match v with
  | VUndefined | VNull => false
  | VBool b => b
  | VNum n => negb (n =? 0)%Z
  | VStr s => negb (String.eqb s "")
  | VObj _ | VFun _ => true
  end.

(** [typeof v == 'function'] *)
Definition is_function (v : value) : bool :=
  match v with VFun _ => true | _ => false end.

(** An object: its own properties, in the order they were added. *)
Definition obj : Type := list (string * value).

Fixpoint obj_get (o : obj) (k : string) : value :=
  match o with
  | [] => VUndefined
  | (k', v) :: o' => if String.eqb k' k then v else obj_get o' k
  end.

(** [o[k] = v]: an existing property keeps its place, a new one is the
    last one added. *)
Fixpoint obj_set (o : obj) (k : string) (v : value) : obj :=
  match o with
  | [] => [(k, v)]
  | (k', v') :: o' =>
      if String.eqb k' k then (k', v) :: o' else (k', v') :: obj_set o' k v
  end.

(** The value of a string of decimal digits, read after [acc]. *)
Fixpoint digits_value (s : string) (acc : N) : option N :=
  match s with
  | EmptyString => Some acc
  | String c s' =>
      let d := N_of_ascii c in
      if ((48 <=? d) && (d <=? 57))%N
      then digits_value s' (acc * 10 + (d - 48))%N
      else None
  end.

(** A property name that is an array index: the canonical decimal form of
    an integer from 0 to 2^32 - 2. *)
Definition array_index (s : string) : option N :=
  match s with
  | EmptyString => None
  | String c s' =>
      if Ascii.eqb c "0"%char
      then (if String.eqb s' "" then Some 0%N else None)
      else match digits_value s 0 with
           | Some n => if (n <=? 4294967294)%N then Some n else None
           | None => None
           end
  end.

(** Insertion of an index-named property into a list sorted by index. *)
Fixpoint insert_index (i : N) (k : string) (l : list (N * string))
  : list (N * string) :=
  match l with
  | [] => [(i, k)]
  | (j, k') :: l' =>
      if (i <? j)%N then (i, k) :: l else (j, k') :: insert_index i k l'
  end.

(** The index-named properties of an object, in ascending order. *)
Fixpoint index_keys (o : obj) : list (N * string) :=
  match o with
  | [] => []
  | (k, _) :: o' =>
      match array_index k with
      | Some i => insert_index i k (index_keys o')
      | None => index_keys o'
      end
  end.

(** The other properties of an object, in the order they were added. *)
Fixpoint named_keys (o : obj) : list string :=
  match o with
  | [] => []
  | (k, _) :: o' =>
      match array_index k with
      | Some _ => named_keys o'
      | None => k :: named_keys o'
      end
  end.

(** [Object.keys(o)] *)
Definition obj_keys (o : obj) : list string :=
  map snd (index_keys o) ++ named_keys o.

(** ** The rendered tree *)

(** A DOM node as the orchestrator reads it: [nodeType], [attributes]
    (name, value), [data] for text, [parentNode] (only ever tested for
    presence) and [childNodes]. *)
Inductive node : Type :=
  Node {
    nodeType : Z;
    attributes : list (string * string);
    data : string;
    parentNode : bool;
    childNodes : list node
  }.

Definition element (attrs : list (string * string)) (kids : list node) : node :=
  Node 1 attrs "" true kids.

Definition text (s : string) : node := Node 3 [] s true [].

(** ** Callbacks *)

(** The functions that end up as listeners.  [Fn f] is a function the
    embedder passed in; calling it is recorded in the trace, and it does
    not call back into the orchestrator.  The other two are the closures [sub] creates:
    [Nested prop fn] is [function() { fn(self.get(prop)) }] and
    [Guarded fn] is
    [function() { if (self._internal_set) return; fn.apply(this, arguments) }]. *)
Inductive callback : Type :=
| Fn (f : nat)
| Nested (prop : string) (fn : callback)
| Guarded (fn : callback).

#[global] Instance callback_eq_dec : EqDecision callback.
Proof. solve_decision. Defined.

(** ** Trace of observable effects *)

Inductive event : Type :=
| Call (f : nat) (args : list value)
| AdapterSet (prop : string) (val : value)
| Emit (name : string) (args : list value)
| NamedBinding (path : list nat) (name : string) (fn : value)
| AttrBinding (path : list nat) (attr : string)
| TextBinding (path : list nat)
| RemoveChild.

#[global] Instance event_eq_dec : EqDecision event.
Proof. solve_decision. Defined.

(** ** The world and the monad of the methods *)

Record World : Type := mkWorld {
  heap : list obj;
  trace : list event
}.

Inductive outcome (T : Type) : Type :=
| Done (x : T) (w : World)
| Thrown (msg : string) (w : World).
Arguments Done {T} x w.
Arguments Thrown {T} msg w.

Definition M (T : Type) : Type := World -> outcome T.

#[global] Instance M_ret : MRet M := fun T x w => Done x w.
#[global] Instance M_bind : MBind M := fun T U k m w =>
  match m w with
  | Done x w' => k x w'
  | Thrown msg w' => Thrown msg w'
  end.

Definition throw {T : Type} (msg : string) : M T := fun w => Thrown msg w.

Definition log (e : event) : M unit :=
  fun w => Done tt (mkWorld (heap w) (trace w ++ [e])).

(** [{}] / [Object.create(null)]: a fresh empty object. *)
Definition alloc : M nat :=
  fun w => Done (length (heap w)) (mkWorld (heap w ++ [[]]) (trace w)).

Definition heap_get (h : list obj) (l : nat) (k : string) : value :=
  match h !! l with
  | Some o => obj_get o k
  | None => VUndefined
  end.

Definition heap_obj (h : list obj) (l : nat) : obj := default [] (h !! l).

(** [o[k]] for the object at address [l]. *)
Definition read_prop (l : nat) (k : string) : M value :=
  fun w => Done (heap_get (heap w) l k) w.

(** [Object.keys(o)] for the object at address [l]. *)
Definition read_keys (l : nat) : M (list string) :=
  fun w => Done (obj_keys (heap_obj (heap w) l)) w.

(** [o[k] = v] for the object at address [l]. *)
Definition write_prop (l : nat) (k : string) (v : value) : M unit :=
  fun w =>
    Done tt (mkWorld (<[l := obj_set (heap_obj (heap w) l) k v]> (heap w))
                     (trace w)).

(** [xs.forEach(f)], threading the receiver. *)
Fixpoint forEach {X S : Type} (f : X -> S -> M S) (xs : list X) (s : S) : M S :=
  match xs with
  | [] => mret s
  | x :: xs' => s' ← f x s; forEach f xs' s'
  end.

(** ** Property paths *)

(** [prop.split('.')] *)
Fixpoint split_dot (s : string) : list string :=
  match s with
  | EmptyString => [EmptyString]
  | String c s' =>
      if Ascii.eqb c "."%char then EmptyString :: split_dot s'
      else match split_dot s' with
           | [] => [String c EmptyString]
           | p :: ps => String c p :: ps
           end
  end.

(** ** Collaborators *)

(** Modelled from the spec: the adapter ([./adapter]) is not part of
    [lib/index.js]; this is the interface the orchestrator consumes from it
    ([Adapter(model)], [get], [set], [subscribe], [unsubscribe],
    [unsubscribeAll]).  The state of an adapter stands for the model as the
    adapter sees it.  [adapter_set] returns the new adapter together with
    the listeners it notifies synchronously and the arguments it passes
    them; the orchestrator's model of the call runs them. *)
Class Adapter (A : Type) : Type := {
  adapter_new : value -> A;
  adapter_get : A -> string -> value;
  adapter_set : A -> string -> value -> A * list (callback * list value);
  adapter_subscribe : A -> string -> callback -> A;
  adapter_unsubscribe : A -> string -> callback -> A;
  adapter_unsubscribeAll : A -> A
}.

(** Modelled from the spec: the other collaborators are not part of
    [lib/index.js] either.  [call_fn f this args] is the result of calling
    the function value [f] (a view helper computes a value and does nothing
    else); [hasInterpolation] is the detector of [./utils]; [domify] parses
    markup; [handler_skip name fn el] tells whether the directive handler
    [fn], activated as [name] on [el], leaves the skip flag of its
    [Binding] set (what else a handler does is its own business and is not
    modelled); [default_bindings] are the directives the built-in plugin
    registers.  [inherited attributes name] tells whether the object
    [_bind] creates with [{}] and fills with the [attributes] of an element
    has a truthy value under [name] that is not one of those attributes:
    the properties the host's [Object.prototype] gives every object
    ([constructor], [toString], ...), and whatever an attribute named
    [__proto__] brings in where assigning that name installs a
    prototype. *)
Class Host : Type := {
  call_fn : nat -> value -> list value -> value;
  hasInterpolation : string -> bool;
  domify : string -> node;
  handler_skip : string -> value -> node -> bool;
  default_bindings : obj;
  inherited : list (string * string) -> string -> bool
}.

Section Orchestrator.

Context {A : Type} `{!Adapter A} `{!Host}.

(** The options object of the constructor. *)
Record Opt : Type := mkOpt {
  opt_adapter : option (value -> A);
  opt_delegate : option nat;
  opt_bindings : option nat
}.

(** An orchestrator instance.  [view] and [bindings] are addresses of
    shared objects; [el] is absent before [render] and after [destroy];
    [_callbacks] is the listener table the emitter mixin keeps. *)
Record Reactive : Type := mkReactive {
  opt : Opt;
  model : value;
  adapter : A;
  view : nat;
  bindings : nat;
  el : option node;
  _internal_set : bool;
  _callbacks : gmap string (list callback)
}.

Definition with_adapter (a : A) (r : Reactive) : Reactive :=
  mkReactive (opt r) (model r) a (view r) (bindings r) (el r)
             (_internal_set r) (_callbacks r).

Definition with_el (e : option node) (r : Reactive) : Reactive :=
  mkReactive (opt r) (model r) (adapter r) (view r) (bindings r) e
             (_internal_set r) (_callbacks r).

Definition with_internal_set (b : bool) (r : Reactive) : Reactive :=
  mkReactive (opt r) (model r) (adapter r) (view r) (bindings r) (el r)
             b (_callbacks r).

Definition with_callbacks (c : gmap string (list callback)) (r : Reactive)
  : Reactive :=
  mkReactive (opt r) (model r) (adapter r) (view r) (bindings r) (el r)
             (_internal_set r) c.

(** ** Value resolution: [Reactive.prototype.get] *)

Definition get (prop : string) (self : Reactive) : M value :=
  if String.eqb prop "this" then mret (model self)
  else
    (* model takes precedence *)
    let modelVal := adapter_get (adapter self) prop in
    if bool_decide (modelVal <> VUndefined) then mret modelVal
    else
      viewVal ← read_prop (view self) prop;
      match viewVal with
      | VFun f => mret (call_fn f (VObj (view self)) [])
      | _ => if truthy viewVal then mret viewVal else mret VUndefined
      end.

(** ** Calling listeners *)

Fixpoint invoke (cb : callback) (args : list value) (self : Reactive) : M unit :=
  match cb with
  | Fn f => log (Call f args)
  | Nested prop fn => v ← get prop self; invoke fn [v] self
  | Guarded fn =>
      (* skip items set internally from calling function twice *)
      if _internal_set self then mret tt else invoke fn args self
  end.

Fixpoint invoke_all (cbs : list callback) (args : list value) (self : Reactive)
  : M unit :=
  match cbs with
  | [] => mret tt
  | cb :: cbs' => _ ← invoke cb args self; invoke_all cbs' args self
  end.

Fixpoint notify (calls : list (callback * list value)) (self : Reactive)
  : M unit :=
  match calls with
  | [] => mret tt
  | (cb, args) :: calls' => _ ← invoke cb args self; notify calls' self
  end.

(** ** The emitter mixin

    [Emitter(Reactive.prototype)] mixes in the [emitter] library: listeners
    are kept per event in registration order, [off] removes the first
    listener that is the function given, [emit] calls the listeners of the
    event in order. *)

Definition listeners (event : string) (self : Reactive) : list callback :=
  default [] (_callbacks self !! event).

Definition on (event : string) (fn : callback) (self : Reactive) : Reactive :=
  with_callbacks (<[event := listeners event self ++ [fn]]> (_callbacks self))
                 self.

(** Removes the first listener that is [fn]. *)
Fixpoint remove_first (fn : callback) (cbs : list callback) : list callback :=
  match cbs with
  | [] => []
  | cb :: cbs' => if decide (cb = fn) then cbs' else cb :: remove_first fn cbs'
  end.

Definition off (event : string) (fn : callback) (self : Reactive) : Reactive :=
  match _callbacks self !! event with
  | None => self
  | Some cbs =>
      with_callbacks (<[event := remove_first fn cbs]> (_callbacks self)) self
  end.

Definition emit (event : string) (args : list value) (self : Reactive) : M unit :=
  _ ← log (Emit event args);
  invoke_all (listeners event self) args self.

Definition removeAllListeners (self : Reactive) : Reactive :=
  with_callbacks ∅ self.

(** ** Subscriptions: [Reactive.prototype.sub] and [unsub] *)

(** The part of [sub] after the multi-segment test: the listener on the
    engine's own change event and the guarded listener on the adapter. *)
Definition sub_register (prop : string) (fn : callback) (self : Reactive)
  : Reactive :=
  (* for when reactive changes the property *)
  let self := on ("change " +:+ prop) fn self in
  (* for when the property changed within the adapter *)
  with_adapter (adapter_subscribe (adapter self) prop (Guarded fn)) self.

Equations? sub (prop : string) (fn : callback) (self : Reactive) : Reactive
  by wf (String.length prop) lt :=
  sub prop fn self with decide (1 < length (split_dot prop)) => {
    | left Hparts =>
        (* if we have parts, we need to subscribe to the parent as well *)
        let self := sub (hd "" (split_dot prop)) (Nested prop fn) self in
        sub_register prop fn self;
    | right _ => sub_register prop fn self }.
Proof.
  clear sub. revert Hparts.
  induction prop as [|c s IH]; simpl; [lia|].
  destruct (Ascii.eqb c "."%char); simpl; [lia|].
  destruct (split_dot s) as [|p ps]; simpl in *; [lia|].
  intros Hlen. specialize (IH Hlen). lia.
Qed.

Definition unsub (prop : string) (fn : callback) (self : Reactive) : Reactive :=
  let self := off ("change " +:+ prop) fn self in
  with_adapter (adapter_unsubscribe (adapter self) prop fn) self.

(** ** Mutation: [Reactive.prototype.set] *)

(** The single-property path of [set]. *)
Definition set_prop (prop : string) (val : value) (self : Reactive)
  : M Reactive :=
  let self := with_internal_set true self in
  let '(a, calls) := adapter_set (adapter self) prop val in
  _ ← log (AdapterSet prop val);
  let self := with_adapter a self in
  _ ← notify calls self;
  _ ← emit ("change " +:+ prop) [val] self;
  mret (with_internal_set false self).

(** [set(prop, val)]: [prop] is a property name or an object of
    properties.  The calls the object form makes on itself pass a string,
    so they take the single-property path. *)
Definition set (prop : string + obj) (val : value) (self : Reactive)
  : M Reactive :=
  match prop with
  | inr props =>
      forEach (fun name self => set_prop name (obj_get props name) self)
              (obj_keys props) self
  | inl name => set_prop name val self
  end.

(** ** Directive registration: [Reactive.prototype.bind] and [use] *)

Definition bind_name (name : string) (fn : value) (self : Reactive)
  : M Reactive :=
  match el self with
  | None => _ ← write_prop (bindings self) name fn; mret self
  | Some _ => throw ".bind() cannot be called after .render()"
  end.

Definition bind (name : string + obj) (fn : value) (self : Reactive)
  : M Reactive :=
  match name with
  | inr props =>
      forEach (fun key self => bind_name key (obj_get props key) self)
              (obj_keys props) self
  | inl name => bind_name name fn self
  end.

Definition use (fn : Reactive -> M Reactive) (self : Reactive) : M Reactive :=
  fn self.

(** Modelled from the spec: the built-in bindings plugin ([./bindings]) is
    not part of [lib/index.js]; it is the plugin that registers the default
    set of named bindings through [bind]. *)
Definition bindings_plugin (self : Reactive) : M Reactive :=
  bind (inr default_bindings) VUndefined self.

(** ** The tree binder: [Reactive.prototype._bind] *)

(** Modelled from the spec: the traversal primitive ([./walk]) is not part
    of [lib/index.js].  The visitor is called on each node in pre-order;
    what it returns is the argument it gives [next]: [true] omits the
    node's children, [false] descends.  A node is identified by the path of
    child indices leading to it from the root. *)
Fixpoint walk_children (walk_child : list nat -> node -> M unit)
  (path : list nat) (i : nat) (kids : list node) : M unit :=
  match kids with
  | [] => mret tt
  | k :: kids' =>
      _ ← walk_child (path ++ [i]) k;
      walk_children walk_child path (S i) kids'
  end.

Fixpoint walk (visit : list nat -> node -> M bool) (path : list nat)
  (n : node) : M unit :=
  skip ← visit path n;
  if (skip : bool) then mret tt
  else
    match n with
    | Node _ _ _ _ kids => walk_children (walk visit) path 0 kids
    end.

(** The own properties of the [attrs] table of [_bind]: attribute name to
    attribute value. *)
Definition attrs_of (attributes : list (string * string)) : gmap string string :=
  foldl (fun attrs attr => <[attr.1 := attr.2]> attrs) ∅ attributes.

(** Whether [attrs[name]] is truthy: [name] is an attribute of the element,
    or a name the table inherits, since [_bind] creates it with [{}]. *)
Definition attrs_has (attributes : list (string * string)) (name : string)
  : bool :=
  bool_decide (is_Some (attrs_of attributes !! name))
  || inherited attributes name.

(** Modelled from the spec: [Binding] ([./binding]) is not part of
    [lib/index.js].  [new Binding(name, self, el, fn)] followed by [bind()]
    activates the handler; the result is the [skip] flag of the binding
    afterwards. *)
Definition activate_binding (path : list nat) (name : string) (fn : value)
  (n : node) : M bool :=
  _ ← log (NamedBinding path name fn);
  mret (handler_skip name fn n).

(** Modelled from the spec: the interpolation bindings ([./attr-binding],
    [./text-binding]) are not part of [lib/index.js]; constructing one
    installs it. *)
Definition new_AttrBinding (path : list nat) (attr : string) : M unit :=
  log (AttrBinding path attr).

Definition new_TextBinding (path : list nat) : M unit :=
  log (TextBinding path).

(** The body of the [Object.keys(bindings).forEach] callback, for one
    [name]; [skip] is the variable the callback closes over. *)
Definition bind_named (self : Reactive) (attrs : string -> bool)
  (path : list nat) (n : node) (name : string) (skip : bool) : M bool :=
  if negb (attrs name) || skip then mret skip
  else
    binding_fn ← read_prop (bindings self) name;
    if negb (truthy binding_fn) then mret skip
    else
      binding_skip ← activate_binding path name binding_fn n;
      if (binding_skip : bool) then mret true else mret skip.

(** [inDomTree] *)
Definition inDomTree (n : node) : bool := parentNode n.

(** The second loop over the attributes of an element. *)
Fixpoint bind_attrs (path : list nat) (attributes : list (string * string))
  : M unit :=
  match attributes with
  | [] => mret tt
  | (name, val) :: rest =>
      _ ← (if hasInterpolation val then new_AttrBinding path name
           else mret tt);
      bind_attrs path rest
  end.

(** The visitor [_bind] hands to [walk]. *)
Definition bind_visit (self : Reactive) (path : list nat) (n : node) : M bool :=
  if (nodeType n =? 1)%Z then
    let attrs := attrs_has (attributes n) in
    (* bindings must be iterated first to see if any request skipping *)
    names ← read_keys (bindings self);
    skip ← forEach (bind_named self attrs path n) names false;
    if (skip : bool) then mret true
    else
      (* if we are not skipping bind any interpolation attrs *)
      _ ← bind_attrs path (attributes n);
      mret false
  else
    _ ← (if (nodeType n =? 3)%Z && inDomTree n then
           if hasInterpolation (data n) then new_TextBinding path
           else mret tt
         else mret tt);
    mret false.

Definition _bind (self : Reactive) : M unit :=
  match el self with
  | Some root => walk (bind_visit self) [] root
  | None => throw "TypeError"
  end.

(** ** [Reactive.prototype.bindInterpolation]

    The traversal that binds interpolation only: the attributes of an
    element, the data of a text node, then every child in turn. *)
Fixpoint bindInterpolation (path : list nat) (n : node) : M unit :=
  (* element *)
  _ ← (if (nodeType n =? 1)%Z then bind_attrs path (attributes n)
       else mret tt);
  (* text node *)
  _ ← (if (nodeType n =? 3)%Z then
         if hasInterpolation (data n) then new_TextBinding path else mret tt
       else mret tt);
  (* walk nodes *)
  match n with
  | Node _ _ _ _ kids => walk_children bindInterpolation path 0 kids
  end.

(** ** Lifecycle: [render], [destroy], the constructor and [subview] *)


Definition destroy (self : Reactive) : M Reactive :=
  match el self with
  | None => throw "TypeError"
  | Some root =>
      _ ← (if parentNode root then log RemoveChild else mret tt);
      let self := with_adapter (adapter_unsubscribeAll (adapter self)) self in
      _ ← emit "destroyed" [] self;
      let self := removeAllListeners self in
      mret (with_el None self)
  end.

(** [new Reactive(model, opt)] *)
Definition new_Reactive (model : value) (opt : option Opt) : M Reactive :=
  let opt := default (mkOpt None None None) opt in
  model ← (if truthy model then mret model else l ← alloc; mret (VObj l));
  let adapter := default adapter_new (opt_adapter opt) model in
  view ← from_option mret alloc (opt_delegate opt);
  bindings ← from_option mret alloc (opt_bindings opt);
  use bindings_plugin
      (mkReactive opt model adapter view bindings None false ∅).

Definition subview (model : value) (self : Reactive) : M Reactive :=
  new_Reactive model
    (Some (mkOpt (opt_adapter (opt self)) (Some (view self))
                 (Some (bindings self)))).

End Orchestrator.

(** ** A reference adapter and host

    An adapter in the sense of the interface above: it keeps the properties
    it is given and the listeners it is given, notifies the listeners of a
    property on every write to it, and unsubscribes the listener it is
    given.  It and [host0] serve to run the orchestrator on concrete
    inputs. *)

Record Store : Type := mkStore {
  props : obj;
  subscribers : list (string * callback)
}.

Fixpoint remove_subscriber (prop : string) (fn : callback)
  (subs : list (string * callback)) : list (string * callback) :=
  match subs with
  | [] => []
  | (p, cb) :: subs' =>
      if String.eqb p prop && bool_decide (cb = fn) then subs'
      else (p, cb) :: remove_subscriber prop fn subs'
  end.

Definition store_notifications (prop : string) (val : value)
  (subs : list (string * callback)) : list (callback * list value) :=
  map (fun s => (s.2, [val])) (filter (fun s => s.1 = prop) subs).

#[global] Instance store_adapter : Adapter Store := {|
  adapter_new _ := mkStore [] [];
  adapter_get a prop := obj_get (props a) prop;
  adapter_set a prop val :=
    (mkStore (obj_set (props a) prop val) (subscribers a),
     store_notifications prop val (subscribers a));
  adapter_subscribe a prop fn :=
    mkStore (props a) (subscribers a ++ [(prop, fn)]);
  adapter_unsubscribe a prop fn :=
    mkStore (props a) (remove_subscriber prop fn (subscribers a));
  adapter_unsubscribeAll a := mkStore (props a) []
|}.

(** The properties of [Object.prototype] in a standard host; all of them
    are truthy. *)
Definition object_prototype_names : list string :=
  ["constructor"; "hasOwnProperty"; "isPrototypeOf"; "propertyIsEnumerable";
   "toLocaleString"; "toString"; "valueOf"; "__defineGetter__";
   "__defineSetter__"; "__lookupGetter__"; "__lookupSetter__"; "__proto__"].

Fixpoint has_brace (s : string) : bool :=
  match s with
  | EmptyString => false
  | String c s' => Ascii.eqb c "{"%char || has_brace s'
  end.

Definition host0 : Host := {|
  call_fn f this args := VNum (Z.of_nat f);
  hasInterpolation := has_brace;
  domify markup := text markup;
  handler_skip name fn n := String.eqb name "each";
  default_bindings := [("each", VFun 100); ("data-text", VFun 101)];
  inherited attributes name := bool_decide (name ∈ object_prototype_names)
|}.

Definition world0 : World := mkWorld [] [].

(** The orchestrator [Reactive()] builds in the empty world, and the world
    it leaves: the model at address 0, the view delegate at 1, the registry
    with the built-in bindings at 2. *)
Definition fresh : @Reactive Store :=
  mkReactive (mkOpt None None None) (VObj 0) (mkStore [] []) 1 2 None false ∅.

Definition fresh_world : World :=
  mkWorld [[]; []; [("each", VFun 100); ("data-text", VFun 101)]] [].

(** An orchestrator whose model has [name] and whose view delegate has a
    method [shout], a plain value [title] and a falsy value [count]. *)
Definition titled : @Reactive Store :=
  mkReactive (mkOpt None (Some 1) None) (VObj 0)
             (mkStore [("name", VStr "Ann")] []) 1 2 None false ∅.

Definition titled_world : World :=
  mkWorld [[("name", VStr "Ann")];
           [("shout", VFun 5); ("title", VStr "Untitled"); ("count", VNum 0)];
           [("each", VFun 100); ("data-text", VFun 101)]] [].

(** [<p each="items" class="{c}">{x}</p>] and
    [<div greet="" class="{c}"><p each="items">{x}</p>{y}</div>] *)
Definition repeated : node :=
  element [("each", "items"); ("class", "{c}")] [text "{x}"].

Definition greeting : node :=
  element [("greet", ""); ("class", "{c}")]
          [element [("each", "items")] [text "{x}"]; text "{y}"].

(** The world of [fresh] after a handler has been registered under
    [toString], a name every [attrs] table inherits. *)
Definition inheriting_world : World :=
  mkWorld [[]; [];
           [("each", VFun 100); ("data-text", VFun 101);
            ("toString", VFun 7)]] [].


(** [<div class="{c}">{x}<p id="i"></p></div>], a tree without directives,
    and a text node [{x}] that is no longer attached. *)
Definition plain_tree : node :=
  element [("class", "{c}")] [text "{x}"; element [("id", "i")] []].

Definition detached_text : node := Node 3 [] "{x}" false [].

(** The world of [fresh] after its owner has put a handler of its own
    under the built-in name [each] and one under [mine]. *)
Definition overridden_world : World :=
  mkWorld [[]; [];
           [("each", VFun 9); ("data-text", VFun 101); ("mine", VFun 8)]] [].

(** [fresh], rendered and attached, with a listener of [destroyed] and a
    subscriber of [p]. *)
Definition listening : @Reactive Store :=
  sub "p" (Fn 7) (on "destroyed" (Fn 3) (with_el (Some greeting) fresh)).

(** A change the adapter detects by itself: the model is written outside of
    [set], and the adapter notifies its listeners. *)
Definition external_write {A : Type} `{!Adapter A} `{!Host}
  (prop : string) (val : value) (self : Reactive) : M Reactive :=
  let '(a, calls) := adapter_set (adapter self) prop val in
  let self := with_adapter a self in
  _ ← notify calls self;
  mret self.

(** ** Vocabulary of the statements *)

(** The world [w] after the events [evs]. *)
Definition extend (w : World) (evs : list event) : World :=
  mkWorld (heap w) (trace w ++ evs).

(** A computation that reads the heap, never throws, and only adds events
    to the trace; the events do not depend on the trace so far. *)
Definition appends {T : Type} (m : M T) : Prop :=
  forall h, exists x evs, forall t, m (mkWorld h t) = Done x (mkWorld h (t ++ evs)).

(** The events a computation adds when run on heap [h]. *)
Definition events_of {T : Type} (m : M T) (h : list obj) : list event :=
  match m (mkWorld h []) with
  | Done _ w => trace w
  | Thrown _ w => trace w
  end.

Definition is_call (e : event) : bool :=
  match e with Call _ _ => true | _ => false end.

Definition is_guarded (cb : callback) : bool :=
  match cb with Guarded _ => true | _ => false end.

(** The adapter stores what it is given: reading a property back after a
    write to it yields the value written. *)
Definition stores_what_it_is_given (A : Type) `{!Adapter A} : Prop :=
  forall (a : A) (prop : string) (val : value),
    adapter_get (adapter_set a prop val).1 prop = val.

(** [r'] is the orchestrator [r] after calls that change nothing of it but
    the state of its adapter and its guard flag. *)
Definition same_instance {A : Type} (r r' : @Reactive A) : Prop :=
  opt r' = opt r /\ model r' = model r /\ view r' = view r /\
  bindings r' = bindings r /\ el r' = el r /\ _callbacks r' = _callbacks r.

(** The writes and emissions [set] makes for the property [k] of [props]. *)
Definition write_and_emit (props : obj) (k : string) : list event :=
  [AdapterSet k (obj_get props k); Emit ("change " +:+ k) [obj_get props k]].

(** The writes and emissions of [set] for the properties [props], one
    after the other. *)
Definition writes_of (props : obj) : list event :=
  flat_map (fun kv => [AdapterSet kv.1 kv.2;
                       Emit ("change " +:+ kv.1) [kv.2]]) props.

Section Vocabulary.

Context `{!Host}.

(** In what follows [reg] is the address of a binding registry. *)

(** The event of activating the handler registered under [k]. *)
Definition activation (reg : nat) (h : list obj) (path : list nat)
  (k : string) : event :=
  NamedBinding path k (heap_get h reg k).

(** The handler registered under [k] asks to skip the subtree of [n]. *)
Definition requests_skip (reg : nat) (h : list obj) (n : node)
  (k : string) : bool :=
  handler_skip k (heap_get h reg k) n.

(** The directive [k] is found in the [attrs] table of [n] and has a
    handler. *)
Definition applies (reg : nat) (h : list obj) (n : node) (k : string)
  : bool :=
  attrs_has (attributes n) k && truthy (heap_get h reg k).

(** The named bindings an element activates, as the specification words
    it: those of [names], in that order, that apply to the element, up to
    and including the first one that requests a skip. *)
Fixpoint activated (reg : nat) (h : list obj) (n : node)
  (names : list string) : list string :=
  match names with
  | [] => []
  | k :: names' =>
      if applies reg h n k then
        k :: (if requests_skip reg h n k then []
              else activated reg h n names')
      else activated reg h n names'
  end.



(** The attribute interpolation bindings of an element. *)
Definition interpolated (path : list nat) (attributes : list (string * string))
  : list event :=
  map (fun attr => AttrBinding path attr.1)
      (filter (fun attr => hasInterpolation attr.2) attributes).

(** No directive of [names] applies to an element of the tree [n], and
    every text node of it is attached. *)
Fixpoint undirected (reg : nat) (h : list obj) (names : list string)
  (n : node) : bool :=
  (if (nodeType n =? 1)%Z then
     match activated reg h n names with [] => true | _ :: _ => false end
   else if (nodeType n =? 3)%Z then parentNode n else true)
  && match n with
     | Node _ _ _ _ kids => forallb (undirected reg h names) kids
     end.

(** The text interpolation binding of a node, if it is a text node with
    interpolation and [attached] holds. *)
Definition text_binding (path : list nat) (n : node) (attached : bool)
  : list event :=
  if (nodeType n =? 3)%Z && attached && hasInterpolation (data n)
  then [TextBinding path] else [].

End Vocabulary.

(** * Properties *)



Lemma split_dot_hd_lt s :
  1 < length (split_dot s) ->
  String.length (hd "" (split_dot s)) < String.length s.
Proof.
  induction s as [|c s IH]; simpl; [lia|].
  destruct (Ascii.eqb c "."%char); simpl; [lia|].
  destruct (split_dot s) as [|p ps] eqn:E; simpl in *; [lia|].
  intros Hlen. specialize (IH Hlen). lia.
Qed.



Lemma split_dot_nonempty_aux s : split_dot s <> [].
Proof.
  destruct s as [|c s]; simpl; [done|].
  destruct (Ascii.eqb c "."%char); [done|]. by destruct (split_dot s).
Qed.

Lemma split_dot_single s a : split_dot s = [a] -> a = s.
Proof.
  revert a. induction s as [|c s IH]; intros a; simpl.
  - by intros [= <-].
  - destruct (Ascii.eqb c "."%char); [|].
    + intros E. inversion E as [[Ea Es]]. by apply split_dot_nonempty_aux in Es.
    + destruct (split_dot s) as [|p ps] eqn:E; [by intros [= <-]; destruct (split_dot_nonempty_aux s)|].
      intros [= <- ->]. by rewrite (IH p eq_refl).
Qed.

(** ** The monad *)

Lemma bind_done {T U : Type} (m : M T) (k : T -> M U) w x w' :
  m w = Done x w' -> (m ≫= k) w = k x w'.
Proof. intros E. unfold mbind, M_bind. by rewrite E. Qed.


Lemma bind_thrown_step {T U : Type} (m : M T) (k : T -> M U) w msg w' :
  m w = Thrown msg w' -> (m ≫= k) w = Thrown msg w'.
Proof. intros E. unfold mbind, M_bind. by rewrite E. Qed.

Lemma extend_nil w : extend w [] = w.
Proof. destruct w. unfold extend. simpl. by rewrite app_nil_r. Qed.

Lemma extend_extend w e1 e2 : extend (extend w e1) e2 = extend w (e1 ++ e2).
Proof. unfold extend. simpl. by rewrite app_assoc. Qed.

Lemma log_extend e w : log e w = Done tt (extend w [e]).
Proof. done. Qed.

Lemma appends_run {T : Type} (m : M T) :
  appends m ->
  forall w, exists x, m w = Done x (extend w (events_of m (heap w))).
Proof.
  intros Hm [h t]. destruct (Hm h) as (x & evs & E). exists x.
  unfold events_of, extend. simpl. rewrite (E []), (E t). done.
Qed.

Lemma appends_ret {T : Type} (x : T) : appends (mret x).
Proof. intros h. exists x, []. intros t. by rewrite app_nil_r. Qed.

Lemma appends_bind {T U : Type} (m : M T) (k : T -> M U) :
  appends m -> (forall x, appends (k x)) -> appends (m ≫= k).
Proof.
  intros Hm Hk h. destruct (Hm h) as (x & e1 & E1).
  destruct (Hk x h) as (y & e2 & E2). exists y, (e1 ++ e2). intros t.
  rewrite (bind_done _ _ _ _ _ (E1 t)), E2. by rewrite app_assoc.
Qed.

Lemma appends_log e : appends (log e).
Proof. intros h. by exists tt, [e]. Qed.

Lemma appends_read_prop l k : appends (read_prop l k).
Proof. intros h. exists (heap_get h l k), []. intros t. by rewrite app_nil_r. Qed.

Lemma appends_read_keys l : appends (read_keys l).
Proof.
  intros h. exists (obj_keys (heap_obj h l)), []. intros t.
  by rewrite app_nil_r.
Qed.

Lemma appends_if {T : Type} (b : bool) (m1 m2 : M T) :
  appends m1 -> appends m2 -> appends (if b then m1 else m2).
Proof. by destruct b. Qed.

Lemma appends_forEach {X S : Type} (f : X -> S -> M S) xs s :
  (forall x s, appends (f x s)) -> appends (forEach f xs s).
Proof.
  intros Hf. revert s. induction xs as [|x xs IH]; intros s; simpl.
  - apply appends_ret.
  - apply appends_bind; [apply Hf | apply IH].
Qed.

Lemma appends_run_unit (m : M unit) :
  appends m -> forall w, m w = Done tt (extend w (events_of m (heap w))).
Proof. intros Hm w. by destruct (appends_run m Hm w) as [[] E]. Qed.

Lemma events_of_seq {U : Type} (m : M unit) (k : unit -> M U) h :
  appends m -> (forall x, appends (k x)) ->
  events_of (m ≫= k) h = events_of m h ++ events_of (k tt) h.
Proof.
  intros Hm Hk. destruct (Hm h) as ([] & e1 & E1).
  destruct (Hk tt h) as (y & e2 & E2). unfold events_of.
  rewrite (bind_done _ _ _ _ _ (E1 [])), (E1 []), (E2 []), E2. done.
Qed.


Lemma events_of_done {T : Type} (m : M T) h x evs :
  m (mkWorld h []) = Done x (extend (mkWorld h []) evs) -> events_of m h = evs.
Proof. intros E. unfold events_of. by rewrite E. Qed.

Lemma filter_calls_nil (evs : list event) :
  Forall (fun e => is_call e = true) evs ->
  filter (fun e => is_call e = false) evs = [].
Proof.
  induction 1 as [|e evs He _ IH]; [done|].
  rewrite filter_cons, decide_False; [done | by rewrite He].
Qed.

(** ** Objects and the heap *)

Lemma obj_get_set_eq o k v : obj_get (obj_set o k v) k = v.
Proof.
  induction o as [|[k' v'] o IH]; simpl.
  - by rewrite String.eqb_refl.
  - destruct (String.eqb k' k) eqn:E; simpl; by rewrite E.
Qed.


Lemma elem_of_insert_index i k l x :
  x ∈ insert_index i k l <-> x = (i, k) \/ x ∈ l.
Proof.
  induction l as [|[j k'] l IH]; simpl.
  - rewrite list_elem_of_singleton. split; [by left | intros [?|Hin]; [done|]].
    by inversion Hin.
  - destruct (i <? j)%N; rewrite !elem_of_cons; [done|].
    rewrite IH. tauto.
Qed.

Lemma elem_of_index_keys o i k :
  (i, k) ∈ index_keys o <-> k ∈ map fst o /\ array_index k = Some i.
Proof.
  induction o as [|[k0 v0] o IH]; simpl.
  - split; [intros Hin | intros [Hin _]]; by inversion Hin.
  - rewrite elem_of_cons. destruct (array_index k0) as [i0|] eqn:E0.
    + rewrite elem_of_insert_index, IH. split.
      * intros [[= -> ->]|[Hin Hi]]; [by split; [left|] | by split; [right|]].
      * intros [[->|Hin] Hi]; [left; congruence | by right].
    + rewrite IH. split.
      * intros [Hin Hi]. by split; [right|].
      * intros [[->|Hin] Hi]; [congruence | done].
Qed.

Lemma elem_of_named_keys o k :
  k ∈ named_keys o <-> k ∈ map fst o /\ array_index k = None.
Proof.
  induction o as [|[k0 v0] o IH]; simpl.
  - split; [intros Hin | intros [Hin _]]; by inversion Hin.
  - destruct (array_index k0) as [i0|] eqn:E0; rewrite ?elem_of_cons, IH.
    + split.
      * intros [Hin Hi]. by split; [right|].
      * intros [[->|Hin] Hi]; [congruence | done].
    + split.
      * intros [->|[Hin Hi]]; [by split; [left|] | by split; [right|]].
      * intros [[->|Hin] Hi]; [by left | by right].
Qed.

(** [Object.keys] lists every property name, and nothing else. *)
Lemma elem_of_obj_keys o k : k ∈ obj_keys o <-> k ∈ map fst o.
Proof.
  unfold obj_keys. rewrite elem_of_app, elem_of_named_keys. split.
  - intros [Hin|[Hin _]]; [|done].
    apply list_elem_of_fmap in Hin as ([i k'] & -> & Hin).
    by apply elem_of_index_keys in Hin as [Hin _].
  - intros Hin. destruct (array_index k) as [i|] eqn:E; [left | by right].
    apply list_elem_of_fmap. exists (i, k). split; [done|].
    by apply elem_of_index_keys.
Qed.

(** Without index-like names [Object.keys] is the order of addition. *)
Lemma obj_keys_named o :
  Forall (fun kv => array_index kv.1 = None) o -> obj_keys o = map fst o.
Proof.
  intros Hnamed.
  assert (index_keys o = [] /\ named_keys o = map fst o) as [Hi Hn].
  { induction Hnamed as [|[k v] o Hk _ [IHi IHn]]; [done|].
    cbn [index_keys named_keys]. cbn [fst] in Hk. rewrite Hk.
    split; [done|]. cbn [map fst]. by rewrite IHn. }
  unfold obj_keys. by rewrite Hi, Hn.
Qed.

Lemma insert_index_sorted i k l :
  StronglySorted (fun a b => (a.1 <= b.1)%N) l ->
  StronglySorted (fun a b => (a.1 <= b.1)%N) (insert_index i k l).
Proof.
  induction 1 as [|[j k'] l Hl IH Hall]; simpl.
  - by repeat constructor.
  - destruct (i <? j)%N eqn:E.
    + apply N.ltb_lt in E. constructor; [by constructor|].
      constructor; [simpl; lia|].
      eapply Forall_impl; [exact Hall|]. simpl. intros [j' k''] ?. simpl in *. lia.
    + apply N.ltb_ge in E. constructor; [done|].
      apply Forall_forall. intros x Hx.
      apply elem_of_insert_index in Hx as [->|Hx]; [done|].
      rewrite Forall_forall in Hall. by apply Hall.
Qed.

Lemma index_keys_sorted o :
  StronglySorted (fun a b => (a.1 <= b.1)%N) (index_keys o).
Proof.
  induction o as [|[k v] o IH]; simpl; [constructor|].
  destruct (array_index k); [by apply insert_index_sorted | done].
Qed.




Lemma heap_get_write_eq h l k v :
  l < length h -> heap_get (<[l := obj_set (heap_obj h l) k v]> h) l k = v.
Proof.
  intros Hl. unfold heap_get. rewrite list_lookup_insert_eq by done.
  apply obj_get_set_eq.
Qed.

Lemma heap_obj_write_eq h l k v :
  l < length h ->
  heap_obj (<[l := obj_set (heap_obj h l) k v]> h) l = obj_set (heap_obj h l) k v.
Proof. intros Hl. unfold heap_obj at 1. by rewrite list_lookup_insert_eq. Qed.

Section Properties.

Context {A : Type} `{!Adapter A} `{!Host}.

Implicit Types (self r : Reactive (A := A)) (w : World) (cb : callback).

Lemma appends_get prop self : appends (get prop self).
Proof.
  unfold get. destruct (String.eqb prop "this"); [apply appends_ret|].
  case_bool_decide; [apply appends_ret|].
  apply appends_bind; [apply appends_read_prop|].
  intros v. destruct v; simpl; repeat case_match; apply appends_ret.
Qed.

Lemma appends_invoke cb : forall args self, appends (invoke cb args self).
Proof.
  induction cb as [f|prop fn IH|fn IH]; intros args self; simpl.
  - apply appends_log.
  - apply appends_bind; [apply appends_get | intros v; apply IH].
  - apply appends_if; [apply appends_ret | apply IH].
Qed.

Lemma appends_invoke_all cbs args self : appends (invoke_all cbs args self).
Proof.
  induction cbs as [|cb cbs IH]; simpl; [apply appends_ret|].
  apply appends_bind; [apply appends_invoke | intros _; apply IH].
Qed.

Lemma appends_notify calls self : appends (notify calls self).
Proof.
  induction calls as [|[cb args] calls IH]; simpl; [apply appends_ret|].
  apply appends_bind; [apply appends_invoke | intros _; apply IH].
Qed.

Lemma appends_emit event args self : appends (emit event args self).
Proof.
  apply appends_bind; [apply appends_log | intros _; apply appends_invoke_all].
Qed.


(** ** Value resolution *)

Lemma get_run (prop : string) self w :
  get prop self w =
    Done (if String.eqb prop "this" then model self
          else if bool_decide (adapter_get (adapter self) prop <> VUndefined)
               then adapter_get (adapter self) prop
               else match heap_get (heap w) (view self) prop with
                    | VFun f => call_fn f (VObj (view self)) []
                    | viewVal => if truthy viewVal then viewVal else VUndefined
                    end) w.
Proof.
  unfold get. destruct (String.eqb prop "this"); [done|].
  case_bool_decide; [done|].
  rewrite (bind_done _ _ w (heap_get (heap w) (view self) prop) w) by done.
  by destruct (heap_get (heap w) (view self) prop); simpl; repeat case_match.
Qed.

(** C1. [get(prop)] resolves by a fixed precedence: ["this"] yields the
    model object; otherwise a value of the adapter other than [undefined]
    wins; otherwise a function entry of the view delegate is called with
    the delegate as its [this] and its result returned, a truthy entry is
    returned as it is, and anything else yields [undefined]. *)
Theorem get_precedence (prop : string) self w :
  let viewVal := heap_get (heap w) (view self) prop in
  (prop = "this" -> get prop self w = Done (model self) w) /\
  (prop <> "this" -> adapter_get (adapter self) prop <> VUndefined ->
     get prop self w = Done (adapter_get (adapter self) prop) w) /\
  (prop <> "this" -> adapter_get (adapter self) prop = VUndefined ->
     forall f, viewVal = VFun f ->
     get prop self w = Done (call_fn f (VObj (view self)) []) w) /\
  (prop <> "this" -> adapter_get (adapter self) prop = VUndefined ->
     is_function viewVal = false -> truthy viewVal = true ->
     get prop self w = Done viewVal w) /\
  (prop <> "this" -> adapter_get (adapter self) prop = VUndefined ->
     is_function viewVal = false -> truthy viewVal = false ->
     get prop self w = Done VUndefined w).
Proof.
  intros viewVal. rewrite get_run. fold viewVal. split_and!.
  - by intros ->.
  - intros Hp Hm. apply String.eqb_neq in Hp as ->.
    by rewrite bool_decide_eq_true_2.
  - intros Hp Hm f Hf. apply String.eqb_neq in Hp as ->.
    rewrite bool_decide_eq_false_2 by (intros Hc; by apply Hc).
    by rewrite Hf.
  - intros Hp Hm Hf Ht. apply String.eqb_neq in Hp as ->.
    rewrite bool_decide_eq_false_2 by (intros Hc; by apply Hc).
    clearbody viewVal. destruct viewVal; simpl in *; try done; by rewrite Ht.
  - intros Hp Hm Hf Ht. apply String.eqb_neq in Hp as ->.
    rewrite bool_decide_eq_false_2 by (intros Hc; by apply Hc).
    clearbody viewVal. destruct viewVal; simpl in *; try done; by rewrite Ht.
Qed.

(** ** The tree binder *)

Lemma node_ind_children (P : node -> Prop) :
  (forall t attrs d p kids, Forall P kids -> P (Node t attrs d p kids)) ->
  forall n, P n.
Proof.
  intros Hstep. fix IH 1. intros [t attrs d p kids]. apply Hstep.
  induction kids as [|k kids IHkids]; constructor; [apply IH | apply IHkids].
Qed.

Lemma bind_named_run self attrs path n name skip w :
  bind_named self attrs path n name skip w =
    let fn := heap_get (heap w) (bindings self) name in
    if negb (attrs name) || skip then Done skip w
    else if negb (truthy fn) then Done skip w
    else Done (if handler_skip name fn n then true else skip)
              (extend w [NamedBinding path name fn]).
Proof.
  unfold bind_named. simpl. destruct (negb _ || skip); [done|].
  rewrite (bind_done _ _ w (heap_get (heap w) (bindings self) name) w) by done.
  destruct (negb _); [done|].
  erewrite bind_done.
  2:{ unfold activate_binding.
      by rewrite (bind_done _ _ _ _ _ (log_extend _ w)). }
  by destruct (handler_skip _ _ _).
Qed.

Lemma named_pass_skipping self attrs path n names w :
  forEach (bind_named self attrs path n) names true w = Done true w.
Proof.
  induction names as [|k names IH]; simpl; [done|].
  erewrite bind_done; [apply IH|].
  rewrite bind_named_run. simpl. by rewrite orb_true_r.
Qed.

Lemma bind_named_applies self path n k w :
  bind_named self (attrs_has (attributes n)) path n k false w =
    if applies (bindings self) (heap w) n k
    then Done (requests_skip (bindings self) (heap w) n k)
              (extend w [activation (bindings self) (heap w) path k])
    else Done false w.
Proof.
  rewrite bind_named_run. unfold applies, requests_skip, activation. simpl.
  rewrite orb_false_r.
  destruct (attrs_has (attributes n) k); simpl; [|done].
  destruct (truthy _); simpl; [|done]. by destruct (handler_skip _ _ _).
Qed.

Lemma named_pass_run self path n names w :
  let ks := activated (bindings self) (heap w) n names in
  forEach (bind_named self (attrs_has (attributes n)) path n) names false w =
    Done (existsb (requests_skip (bindings self) (heap w) n) ks)
         (extend w (map (activation (bindings self) (heap w) path) ks)).
Proof.
  revert w. induction names as [|k names IH]; intros w; simpl.
  - by rewrite extend_nil.
  - unfold mbind, M_bind. rewrite bind_named_applies.
    destruct (applies (bindings self) (heap w) n k); [|apply IH].
    destruct (requests_skip (bindings self) (heap w) n k) eqn:Es; simpl; rewrite Es.
    + apply named_pass_skipping.
    + simpl. rewrite IH. simpl. by rewrite extend_extend.
Qed.

Lemma bind_attrs_run path attrs w :
  bind_attrs path attrs w = Done tt (extend w (interpolated path attrs)).
Proof.
  revert w. induction attrs as [|[name val] attrs IH]; intros w; simpl.
  - by rewrite extend_nil.
  - unfold interpolated. rewrite filter_cons. simpl.
    destruct (hasInterpolation val) eqn:E.
    + unfold new_AttrBinding.
      rewrite (bind_done _ _ _ _ _ (log_extend _ w)), IH, extend_extend.
      by rewrite decide_True.
    + erewrite bind_done; [|reflexivity]. rewrite IH.
      rewrite decide_False; [done | by intros []].
Qed.

Lemma bind_visit_element self path n w :
  nodeType n = 1%Z ->
  let ks := activated (bindings self) (heap w) n (obj_keys (heap_obj (heap w) (bindings self))) in
  let skip := existsb (requests_skip (bindings self) (heap w) n) ks in
  bind_visit self path n w =
    Done skip
      (extend w (map (activation (bindings self) (heap w) path) ks
                 ++ if skip then [] else interpolated path (attributes n))).
Proof.
  intros Ht ks skip. unfold bind_visit. rewrite Ht. simpl.
  erewrite bind_done; [|reflexivity]. simpl.
  erewrite bind_done; [|apply named_pass_run]. fold ks skip.
  destruct skip.
  - by rewrite app_nil_r.
  - erewrite bind_done; [|apply bind_attrs_run]. by rewrite extend_extend.
Qed.

Lemma appends_bind_named self attrs path n name skip :
  appends (bind_named self attrs path n name skip).
Proof.
  unfold bind_named. apply appends_if; [apply appends_ret|].
  apply appends_bind; [apply appends_read_prop | intros fn].
  apply appends_if; [apply appends_ret|].
  apply appends_bind; [|intros b; apply appends_if; apply appends_ret].
  apply appends_bind; [apply appends_log | intros _; apply appends_ret].
Qed.

Lemma appends_bind_attrs path attrs : appends (bind_attrs path attrs).
Proof.
  induction attrs as [|[name val] attrs IH]; simpl; [apply appends_ret|].
  apply appends_bind; [|intros _; apply IH].
  apply appends_if; [apply appends_log | apply appends_ret].
Qed.

Lemma appends_bind_visit self path n : appends (bind_visit self path n).
Proof.
  unfold bind_visit. apply appends_if.
  - apply appends_bind; [apply appends_read_keys | intros names].
    apply appends_bind.
    + apply appends_forEach. intros. apply appends_bind_named.
    + intros skip. apply appends_if; [apply appends_ret|].
      apply appends_bind; [apply appends_bind_attrs | intros _].
      apply appends_ret.
  - apply appends_bind; [|intros _; apply appends_ret].
    apply appends_if; [|apply appends_ret].
    apply appends_if; [apply appends_log | apply appends_ret].
Qed.

Lemma appends_walk_children (walk_child : list nat -> node -> M unit) path kids :
  Forall (fun k => forall p, appends (walk_child p k)) kids ->
  forall i, appends (walk_children walk_child path i kids).
Proof.
  induction 1 as [|k kids Hk _ IH]; intros i; simpl; [apply appends_ret|].
  apply appends_bind; [apply Hk | intros _; apply IH].
Qed.

Lemma appends_walk self n : forall path, appends (walk (bind_visit self) path n).
Proof.
  induction n as [t attrs d p kids IH] using node_ind_children.
  intros path. simpl.
  apply appends_bind; [apply appends_bind_visit | intros skip].
  apply appends_if; [apply appends_ret|].
  by apply appends_walk_children.
Qed.

Lemma walk_children_run self path kids : forall i w,
  walk_children (walk (bind_visit self)) path i kids w =
    Done tt
      (extend w
         (concat (imap (fun j k =>
                          events_of (walk (bind_visit self) (path ++ [i + j]) k)
                                    (heap w)) kids))).
Proof.
  induction kids as [|k kids IH]; intros i w; simpl.
  - by rewrite extend_nil.
  - destruct (appends_run _ (appends_walk self k (path ++ [i])) w) as [[] E].
    rewrite (bind_done _ _ _ _ _ E), IH, extend_extend. simpl.
    rewrite Nat.add_0_r. do 3 f_equal. f_equal. apply imap_ext.
    intros j x _. simpl. by rewrite Nat.add_succ_r.
Qed.

Lemma activated_sublist `{!Host} reg h n names :
  activated reg h n names `sublist_of` names.
Proof.
  induction names as [|k names IH]; simpl; [constructor|].
  destruct (applies reg h n k); [|by apply sublist_cons].
  apply sublist_skip. destruct (requests_skip reg h n k); [|done].
  apply sublist_nil_l.
Qed.

Lemma activated_stops_at_skip `{!Host} reg h n names : forall pre k post,
  activated reg h n names = pre ++ k :: post ->
  requests_skip reg h n k = true -> post = [].
Proof.
  induction names as [|k0 names IH]; intros pre k post E Hk; simpl in E.
  - by destruct pre.
  - destruct (applies reg h n k0); [|by eapply IH].
    destruct pre as [|p pre]; simpl in E; inversion E as [[E1 E2]]; subst.
    + by rewrite Hk.
    + destruct (requests_skip reg h n p); [by destruct pre|].
      by eapply IH.
Qed.


Lemma walk_element self path n w :
  nodeType n = 1%Z ->
  let reg := bindings self in
  let ks := activated reg (heap w) n (obj_keys (heap_obj (heap w) reg)) in
  let skip := existsb (requests_skip reg (heap w) n) ks in
  walk (bind_visit self) path n w =
    Done tt
      (extend w
         (map (activation reg (heap w) path) ks
          ++ if skip then []
             else interpolated path (attributes n)
                  ++ concat (imap (fun i k =>
                       events_of (walk (bind_visit self) (path ++ [i]) k)
                                 (heap w)) (childNodes n)))).
Proof.
  intros Ht reg ks skip. destruct n as [t attrs d p kids]. simpl.
  erewrite bind_done; [|by apply bind_visit_element]. fold reg ks skip.
  destruct skip; [done|]. simpl.
  rewrite walk_children_run, extend_extend. simpl. by rewrite app_assoc.
Qed.

(** C2. In the [_bind] traversal an element first activates the named
    bindings of the registry that apply to it, in registry-key order, and
    only then gets its attribute interpolation bindings.  Once an activated
    binding has requested a skip, no later named binding is activated on
    the element, no interpolation binding is installed on it, and nothing
    is installed below it; the element's siblings are each walked as
    usual. *)
Theorem bind_skip_discipline self path n w :
  nodeType n = 1%Z ->
  let reg := bindings self in
  let names := obj_keys (heap_obj (heap w) reg) in
  let ks := activated reg (heap w) n names in
  let skip := existsb (requests_skip reg (heap w) n) ks in
  let named := map (activation reg (heap w) path) ks in
  let below := concat (imap (fun i k =>
                 events_of (walk (bind_visit self) (path ++ [i]) k) (heap w))
                 (childNodes n)) in
  ks `sublist_of` names /\
  (forall pre k post, ks = pre ++ k :: post ->
     requests_skip reg (heap w) n k = true -> post = []) /\
  bind_visit self path n w =
    Done skip (extend w (named ++ if skip then []
                                  else interpolated path (attributes n))) /\
  walk (bind_visit self) path n w =
    Done tt (extend w (named ++ if skip then []
                                else interpolated path (attributes n) ++ below)) /\
  (forall i siblings,
     walk_children (walk (bind_visit self)) path i siblings w =
       Done tt (extend w (concat (imap (fun j k =>
         events_of (walk (bind_visit self) (path ++ [i + j]) k) (heap w))
         siblings)))) /\
  (el self = Some n -> path = [] -> _bind self w = walk (bind_visit self) path n w).
Proof.
  intros Ht reg names ks skip named below. split_and!.
  - apply activated_sublist.
  - apply activated_stops_at_skip.
  - by apply bind_visit_element.
  - by apply walk_element.
  - intros i siblings. apply walk_children_run.
  - intros Hel ->. unfold _bind. by rewrite Hel.
Qed.

(** ** Registration and lifecycle *)

Lemma bind_name_unrendered name fn self w :
  el self = None ->
  bind_name name fn self w =
    Done self
      (mkWorld (<[bindings self :=
                   obj_set (heap_obj (heap w) (bindings self)) name fn]> (heap w))
               (trace w)).
Proof. intros Hel. unfold bind_name. by rewrite Hel. Qed.

Lemma bind_name_rendered name fn self w :
  el self <> None ->
  bind_name name fn self w =
    Thrown ".bind() cannot be called after .render()" w.
Proof. intros Hel. unfold bind_name. by destruct (el self). Qed.



Lemma bind_visit_other self path n w :
  nodeType n <> 1%Z ->
  bind_visit self path n w =
    Done false (extend w (text_binding path n (parentNode n))).
Proof.
  intros Ht. unfold bind_visit, text_binding, inDomTree, new_TextBinding.
  apply Z.eqb_neq in Ht as ->.
  destruct ((nodeType n =? 3)%Z && parentNode n); simpl.
  - destruct (hasInterpolation (data n)).
    + by rewrite (bind_done _ _ _ _ _ (log_extend _ w)).
    + erewrite bind_done; [|reflexivity]. by rewrite extend_nil.
  - erewrite bind_done; [|reflexivity]. by rewrite extend_nil.
Qed.

Lemma walk_non_element_aux self path n w :
  nodeType n <> 1%Z ->
  walk (bind_visit self) path n w =
    Done tt
      (extend w
         (text_binding path n (parentNode n)
          ++ concat (imap (fun i k =>
               events_of (walk (bind_visit self) (path ++ [i]) k) (heap w))
               (childNodes n)))).
Proof.
  intros Ht. destruct n as [t attrs d p kids]. simpl.
  erewrite bind_done; [|by apply bind_visit_other]. simpl.
  by rewrite walk_children_run, extend_extend.
Qed.






(** C10. [destroy] removes the rendered root, so a [bind] that threw before
    it succeeds after it and writes the registry, which every orchestrator
    sharing that registry then sees. *)
Theorem bind_after_destroy self w root :
  el self = Some root ->
  exists r1 w1,
    destroy self w = Done r1 w1 /\
    el r1 = None /\ bindings r1 = bindings self /\ heap w1 = heap w /\
    forall name fn,
      bind (inl name) fn self w =
        Thrown ".bind() cannot be called after .render()" w /\
      exists w2,
        bind (inl name) fn r1 w1 = Done r1 w2 /\
        (bindings self < length (heap w) ->
         forall other : Reactive (A := A),
           bindings other = bindings self ->
           heap_get (heap w2) (bindings other) name = fn).
Proof.
  intros Hel. unfold destroy. rewrite Hel.
  set (r := with_adapter (adapter_unsubscribeAll (adapter self)) self).
  assert (exists w0, (if parentNode root then log RemoveChild else mret tt) w
                     = Done tt w0 /\ heap w0 = heap w) as (w0 & E0 & H0).
  { destruct (parentNode root); eexists; split; try reflexivity. }
  destruct (appends_run _ (appends_emit "destroyed" [] r) w0) as [[] E1].
  do 2 eexists. split.
  { rewrite (bind_done _ _ _ _ _ E0). rewrite (bind_done _ _ _ _ _ E1).
    reflexivity. }
  simpl. split_and!; try done.
  intros name fn. split.
  { apply bind_name_rendered. by rewrite Hel. }
  eexists. split; [by apply bind_name_unrendered|].
  simpl. intros Hreg other ->. apply heap_get_write_eq. by rewrite H0.
Qed.

(** ** Subviews *)



(** ** Listeners and mutation *)


Lemma get_value prop self h :
  exists v, forall t, get prop self (mkWorld h t) = Done v (mkWorld h t).
Proof.
  destruct (appends_get prop self h) as (v & evs & E). exists v.
  assert (evs = []) as ->.
  { specialize (E []). unfold get in E. repeat case_match;
      unfold mret, M_ret, mbind, M_bind, read_prop in E; simpl in E;
      repeat case_match; by inversion E. }
  intros t. by rewrite E, app_nil_r.
Qed.

(** [get] looks at the adapter, the model and the view delegate only. *)
Lemma get_same prop r1 r2 w :
  adapter r1 = adapter r2 -> model r1 = model r2 -> view r1 = view r2 ->
  get prop r1 w = get prop r2 w.
Proof. intros Ha Hm Hv. unfold get. by rewrite Ha, Hm, Hv. Qed.

Lemma invoke_calls cb : forall args self h,
  Forall (fun e => is_call e = true) (events_of (invoke cb args self) h).
Proof.
  induction cb as [f|prop fn IH|fn IH]; intros args self h; simpl.
  - by constructor.
  - destruct (get_value prop self h) as (v & E). unfold events_of.
    rewrite (bind_done _ _ _ _ _ (E [])). apply IH.
  - destruct (_internal_set self); [constructor | apply IH].
Qed.

Lemma events_of_invoke_all_cons cb cbs args self h :
  events_of (invoke_all (cb :: cbs) args self) h =
    events_of (invoke cb args self) h ++ events_of (invoke_all cbs args self) h.
Proof.
  simpl. apply events_of_seq; [apply appends_invoke|].
  intros _. apply appends_invoke_all.
Qed.

Lemma events_of_invoke_all_app cbs1 cbs2 args self h :
  events_of (invoke_all (cbs1 ++ cbs2) args self) h =
    events_of (invoke_all cbs1 args self) h
    ++ events_of (invoke_all cbs2 args self) h.
Proof.
  induction cbs1 as [|cb cbs1 IH]; [done|].
  rewrite <- app_comm_cons, !events_of_invoke_all_cons, IH.
  by rewrite app_assoc.
Qed.

Lemma events_of_notify_cons cb args calls self h :
  events_of (notify ((cb, args) :: calls) self) h =
    events_of (invoke cb args self) h ++ events_of (notify calls self) h.
Proof.
  simpl. apply events_of_seq; [apply appends_invoke|].
  intros _. apply appends_notify.
Qed.

Lemma invoke_all_calls cbs args self h :
  Forall (fun e => is_call e = true) (events_of (invoke_all cbs args self) h).
Proof.
  induction cbs as [|cb cbs IH]; [constructor|].
  rewrite events_of_invoke_all_cons. apply Forall_app. split; [|done].
  apply invoke_calls.
Qed.

Lemma notify_calls calls self h :
  Forall (fun e => is_call e = true) (events_of (notify calls self) h).
Proof.
  induction calls as [|[cb args] calls IH]; [constructor|].
  rewrite events_of_notify_cons. apply Forall_app. split; [|done].
  apply invoke_calls.
Qed.

(** While the guard is up, the listeners [sub] put on the adapter do
    nothing. *)
Lemma notify_guarded calls self h :
  _internal_set self = true ->
  Forall (fun c => is_guarded c.1 = true) calls ->
  events_of (notify calls self) h = [].
Proof.
  intros Hg. induction 1 as [|[cb args] calls Hcb _ IH]; [done|].
  rewrite events_of_notify_cons, IH, app_nil_r.
  destruct cb; try done. simpl. by rewrite Hg.
Qed.

Lemma set_prop_run prop val self w :
  let a := (adapter_set (adapter self) prop val).1 in
  let calls := (adapter_set (adapter self) prop val).2 in
  let guarded := with_adapter a (with_internal_set true self) in
  set_prop prop val self w =
    Done (with_internal_set false (with_adapter a self))
      (extend w
         (AdapterSet prop val
          :: events_of (notify calls guarded) (heap w)
          ++ Emit ("change " +:+ prop) [val]
          :: events_of (invoke_all (listeners ("change " +:+ prop) self)
                                   [val] guarded) (heap w))).
Proof.
  intros a calls guarded. unfold set_prop. simpl.
  destruct (adapter_set (adapter self) prop val) as [a' calls'] eqn:E.
  subst a calls guarded. simpl.
  rewrite (bind_done _ _ _ _ _ (log_extend _ w)).
  erewrite bind_done; [|by apply appends_run_unit, appends_notify].
  unfold emit.
  erewrite bind_done.
  2:{ erewrite bind_done; [|apply log_extend].
      by apply appends_run_unit, appends_invoke_all. }
  unfold mret, M_ret. rewrite !extend_extend. simpl. reflexivity.
Qed.

(** ** Subscriptions *)

Lemma split_dot_hd_single s :
  split_dot (hd "" (split_dot s)) = [hd "" (split_dot s)].
Proof.
  induction s as [|c s IH]; simpl; [done|].
  destruct (Ascii.eqb c "."%char) eqn:Ec; simpl; [done|].
  destruct (split_dot s) as [|p ps] eqn:E; simpl in *.
  - by rewrite Ec.
  - by rewrite Ec, IH.
Qed.

Lemma sub_single prop (fn : callback) self :
  ~ 1 < length (split_dot prop) -> sub prop fn self = sub_register prop fn self.
Proof.
  intros Hn. simp sub. destruct (decide (1 < length (split_dot prop))); [lia|].
  by simp sub.
Qed.

Lemma sub_multi prop (fn : callback) self :
  1 < length (split_dot prop) ->
  sub prop fn self =
    sub_register prop fn
      (sub_register (hd "" (split_dot prop)) (Nested prop fn) self).
Proof.
  intros Hn. simp sub. destruct (decide (1 < length (split_dot prop))); [|lia].
  simpl. rewrite sub_single; [done|].
  rewrite split_dot_hd_single. simpl. lia.
Qed.

Lemma change_inj (p q : string) : "change " +:+ p = "change " +:+ q -> p = q.
Proof. intros E. simpl in E. by inversion E. Qed.

Lemma listeners_on_eq event (fn : callback) self :
  listeners event (on event fn self) = listeners event self ++ [fn].
Proof. unfold listeners at 1, on. simpl. by rewrite lookup_insert_eq. Qed.

Lemma listeners_on_ne event event' (fn : callback) self :
  event <> event' -> listeners event' (on event fn self) = listeners event' self.
Proof.
  intros Hne. unfold listeners at 1, on. simpl. by rewrite lookup_insert_ne.
Qed.

Lemma listeners_sub_register_eq prop (fn : callback) self :
  listeners ("change " +:+ prop) (sub_register prop fn self) =
    listeners ("change " +:+ prop) self ++ [fn].
Proof. apply listeners_on_eq. Qed.

Lemma listeners_sub_register_ne prop prop' (fn : callback) self :
  prop <> prop' ->
  listeners ("change " +:+ prop') (sub_register prop fn self) =
    listeners ("change " +:+ prop') self.
Proof.
  intros Hne. unfold sub_register.
  change (listeners ?e (with_adapter ?a ?r)) with (listeners e r).
  apply listeners_on_ne. intros E. by apply change_inj in E.
Qed.

Lemma hd_split_dot_ne prop :
  1 < length (split_dot prop) -> hd "" (split_dot prop) <> prop.
Proof.
  intros Hlen E. apply split_dot_hd_lt in Hlen. rewrite E in Hlen. lia.
Qed.

(** [sub(prop, fn)] puts [fn] last among the listeners of the change event
    of [prop]. *)
Lemma listeners_sub prop (fn : callback) self :
  listeners ("change " +:+ prop) (sub prop fn self) =
    listeners ("change " +:+ prop) self ++ [fn].
Proof.
  destruct (decide (1 < length (split_dot prop))) as [Hlen|Hlen].
  - rewrite sub_multi, listeners_sub_register_eq by done.
    rewrite listeners_sub_register_ne; [done|]. by apply hd_split_dot_ne.
  - rewrite sub_single by done. apply listeners_sub_register_eq.
Qed.

(** For a path of several segments, [sub] puts the forwarding closure last
    among the listeners of the change event of the first segment. *)
Lemma listeners_sub_parent prop (fn : callback) self :
  1 < length (split_dot prop) ->
  listeners ("change " +:+ hd "" (split_dot prop)) (sub prop fn self) =
    listeners ("change " +:+ hd "" (split_dot prop)) self ++ [Nested prop fn].
Proof.
  intros Hlen. rewrite sub_multi by done.
  rewrite listeners_sub_register_ne.
  - apply listeners_sub_register_eq.
  - intros E. symmetry in E. by apply hd_split_dot_ne in E.
Qed.

Lemma sub_keeps prop (fn : callback) self :
  _internal_set (sub prop fn self) = _internal_set self /\
  model (sub prop fn self) = model self /\
  view (sub prop fn self) = view self /\
  bindings (sub prop fn self) = bindings self /\
  el (sub prop fn self) = el self.
Proof.
  destruct (decide (1 < length (split_dot prop))) as [Hlen|Hlen].
  - by rewrite sub_multi.
  - by rewrite sub_single.
Qed.

Lemma notify_elem cb args calls self h e :
  (cb, args) ∈ calls ->
  e ∈ events_of (invoke cb args self) h ->
  e ∈ events_of (notify calls self) h.
Proof.
  intros Hin He. induction calls as [|[cb' args'] calls IH]; [by inversion Hin|].
  rewrite events_of_notify_cons. apply elem_of_app.
  inversion Hin; subst; [by left | right; by apply IH].
Qed.

Lemma external_write_run prop val self w :
  let a := (adapter_set (adapter self) prop val).1 in
  let calls := (adapter_set (adapter self) prop val).2 in
  external_write prop val self w =
    Done (with_adapter a self)
         (extend w (events_of (notify calls (with_adapter a self)) (heap w))).
Proof.
  intros a calls. unfold external_write.
  destruct (adapter_set (adapter self) prop val) as [a' calls'] eqn:E.
  subst a calls. simpl.
  erewrite bind_done; [|by apply appends_run_unit, appends_notify]. done.
Qed.

(** C3. What [sub(p, fn)] subscribes to the adapter under [p] is a closure
    around [fn] that does nothing while the own-write guard is up and
    otherwise calls [fn] with the arguments it is given.  So when
    [set(p, v)] is the origin of a change, a subscriber of [p] is reached by
    the change event only, once; when the adapter reports a change that did
    not come from [set], the subscriber is called through the adapter
    listener. *)
Theorem set_suppresses_adapter_listener (p : string) (f : nat) (v : value)
    self w :
  let self1 := sub p (Fn f) self in
  let a := (adapter_set (adapter self1) p v).1 in
  let calls := (adapter_set (adapter self1) p v).2 in
  let guarded := with_adapter a (with_internal_set true self1) in
  adapter self1 =
    adapter_subscribe
      (if decide (1 < length (split_dot p))
       then adapter_subscribe (adapter self) (hd "" (split_dot p))
                              (Guarded (Nested p (Fn f)))
       else adapter self)
      p (Guarded (Fn f)) /\
  (forall args r w0,
     _internal_set r = false ->
     invoke (Guarded (Fn f)) args r w0 = Done tt (extend w0 [Call f args])) /\
  (forall cb args r w0,
     _internal_set r = true -> invoke (Guarded cb) args r w0 = Done tt w0) /\
  (Forall (fun c => is_guarded c.1 = true) calls ->
   set (inl p) v self1 w =
     Done (with_internal_set false (with_adapter a self1))
       (extend w
          (AdapterSet p v :: Emit ("change " +:+ p) [v]
           :: events_of (invoke_all (listeners ("change " +:+ p) self)
                                    [v] guarded) (heap w)
           ++ [Call f [v]]))) /\
  (_internal_set self = false ->
   forall args, (Guarded (Fn f), args) ∈ calls ->
   exists evs,
     external_write p v self1 w = Done (with_adapter a self1) (extend w evs) /\
     Call f args ∈ evs).
Proof.
  intros self1 a calls guarded. split_and!.
  - unfold self1. destruct (decide (1 < length (split_dot p))) as [Hlen|Hlen].
    + by rewrite sub_multi.
    + by rewrite sub_single.
  - intros args r w0 Hg. simpl. by rewrite Hg.
  - intros cb args r w0 Hg. simpl. by rewrite Hg.
  - intros Hcalls. simpl. rewrite set_prop_run. fold a calls guarded.
    rewrite notify_guarded by done. simpl.
    pose proof (listeners_sub p (Fn f) self) as Hl. fold self1 in Hl.
    by rewrite Hl, events_of_invoke_all_app.
  - intros Hg args Hin. eexists. split; [apply external_write_run|].
    fold a calls. eapply notify_elem; [exact Hin|]. simpl.
    unfold self1. destruct (sub_keeps p (Fn f) self) as (-> & _).
    rewrite Hg. by left.
Qed.

(** C5. A subscriber of a two-segment path [a.b] is called with the
    payload of the change event when [set('a.b', x)] occurs, and with the
    value [get('a.b')] resolves to at that moment when [set('a', y)]
    occurs. *)
Theorem sub_nested_path (prop a b : string) (f : nat) (x y : value) self w :
  split_dot prop = [a; b] ->
  let self1 := sub prop (Fn f) self in
  (exists r' pre,
     set (inl prop) x self1 w = Done r' (extend w (pre ++ [Call f [x]]))) /\
  (exists r' pre nested,
     set (inl a) y self1 w = Done r' (extend w (pre ++ [Call f [nested]])) /\
     get prop r' (extend w (pre ++ [Call f [nested]]))
       = Done nested (extend w (pre ++ [Call f [nested]]))).
Proof.
  intros Hsplit self1.
  assert (1 < length (split_dot prop)) as Hlen by (rewrite Hsplit; simpl; lia).
  assert (hd "" (split_dot prop) = a) as Hhd by (by rewrite Hsplit).
  split.
  - pose proof (listeners_sub prop (Fn f) self) as Hl. fold self1 in Hl.
    do 2 eexists. simpl. rewrite set_prop_run, Hl, events_of_invoke_all_app.
    rewrite app_comm_cons, (app_comm_cons _ _ (Emit _ _)), !app_assoc.
    reflexivity.
  - pose proof (listeners_sub_parent prop (Fn f) self Hlen) as Hl.
    fold self1 in Hl. rewrite Hhd in Hl.
    simpl. rewrite set_prop_run, Hl, events_of_invoke_all_app.
    set (guarded := with_adapter _ (with_internal_set true self1)).
    destruct (get_value prop guarded (heap w)) as (nested & Hget).
    assert (events_of (invoke_all [Nested prop (Fn f)] [y] guarded) (heap w)
            = [Call f [nested]]) as ->.
    { unfold events_of. simpl.
      erewrite bind_done; [|erewrite bind_done; [|apply Hget]; reflexivity].
      done. }
    rewrite app_comm_cons, (app_comm_cons _ _ (Emit _ _)), !app_assoc.
    do 3 eexists. split; [reflexivity|].
    erewrite get_same; [apply Hget|done..].
Qed.

Lemma same_instance_refl self : same_instance self self.
Proof. by repeat split. Qed.

Lemma set_prop_effects prop val self w :
  exists evs,
    set_prop prop val self w =
      Done (with_internal_set false
              (with_adapter (adapter_set (adapter self) prop val).1 self))
           (extend w evs) /\
    filter (fun e => is_call e = false) evs =
      [AdapterSet prop val; Emit ("change " +:+ prop) [val]].
Proof.
  eexists. split; [apply set_prop_run|].
  rewrite filter_cons, decide_True by done.
  rewrite filter_app, filter_calls_nil by apply notify_calls. simpl.
  rewrite filter_cons, decide_True by done.
  by rewrite filter_calls_nil by apply invoke_all_calls.
Qed.

Lemma set_props_run (props : obj) keys : forall self w,
  exists r' evs,
    forEach (fun name r => set_prop name (obj_get props name) r) keys self w
      = Done r' (extend w evs) /\
    filter (fun e => is_call e = false) evs
      = flat_map (write_and_emit props) keys /\
    adapter r' = foldl (fun a k => (adapter_set a k (obj_get props k)).1)
                       (adapter self) keys /\
    same_instance self r'.
Proof.
  induction keys as [|k keys IH]; intros self w; simpl.
  - exists self, []. rewrite extend_nil. split_and!; done.
  - destruct (set_prop_effects k (obj_get props k) self w) as (e1 & E1 & F1).
    erewrite bind_done; [|exact E1].
    edestruct IH as (r' & e2 & E2 & F2 & Ha & Hs).
    exists r', (e1 ++ e2). rewrite <- extend_extend. split; [exact E2|].
    rewrite filter_app, F1, F2. split; [done|]. split; [exact Ha|].
    exact Hs.
Qed.

Lemma named_keys_filter o :
  named_keys o = filter (fun k => array_index k = None) (map fst o).
Proof.
  induction o as [|[k v] o IH]; [done|]. cbn [named_keys map fst].
  rewrite filter_cons. destruct (array_index k) as [i|] eqn:E.
  - by rewrite decide_False.
  - rewrite decide_True by done. by rewrite IH.
Qed.

Lemma obj_get_in o k v :
  NoDup (map fst o) -> (k, v) ∈ o -> obj_get o k = v.
Proof.
  induction o as [|[k' v'] o IH]; intros Hnd Hin; [by inversion Hin|].
  simpl in *. apply NoDup_cons in Hnd as [Hk' Hnd].
  apply elem_of_cons in Hin as [[= -> ->]|Hin].
  - by rewrite String.eqb_refl.
  - destruct (String.eqb k' k) eqn:E; [|by apply IH].
    apply String.eqb_eq in E as ->. exfalso. apply Hk'.
    apply list_elem_of_fmap. by exists (k, v).
Qed.

Lemma writes_in_order (props o : obj) :
  (forall kv, kv ∈ o -> obj_get props kv.1 = kv.2) ->
  flat_map (write_and_emit props) (map fst o) = writes_of o.
Proof.
  induction o as [|[k v] o IH]; intros Hget; [done|].
  pose proof (Hget (k, v) ltac:(by left)) as Hk. simpl in Hk.
  unfold writes_of. simpl. unfold write_and_emit at 1. rewrite Hk.
  do 2 f_equal. apply IH. intros kv Hin. apply Hget. by right.
Qed.

(** C8, as amended.  [set(props)] does what calling [set(k, props[k])]
    for each key [k] of [props] does, in the order [Object.keys] lists
    them: the keys that are array indices first, in ascending numeric
    order, then the other keys in the order they were added, which is the
    order of addition of all keys when none is an array index.  The adapter
    writes and change events are the same and in that order, so is the
    final state, and both forms hand back the orchestrator. *)
Theorem set_object_form (props : obj) (val : value) self w :
  set (inr props) val self w =
    forEach (fun k r => set (inl k) (obj_get props k) r) (obj_keys props) self w /\
  (exists r' evs,
     set (inr props) val self w = Done r' (extend w evs) /\
     filter (fun e => is_call e = false) evs
       = flat_map (write_and_emit props) (obj_keys props) /\
     adapter r' = foldl (fun a k => (adapter_set a k (obj_get props k)).1)
                        (adapter self) (obj_keys props) /\
     same_instance self r') /\
  (forall p, exists r' evs,
     set (inl p) val self w = Done r' (extend w evs) /\
     filter (fun e => is_call e = false) evs
       = [AdapterSet p val; Emit ("change " +:+ p) [val]] /\
     adapter r' = (adapter_set (adapter self) p val).1 /\
     same_instance self r') /\
  (exists idx,
     obj_keys props =
       map snd idx ++ filter (fun k => array_index k = None) (map fst props) /\
     StronglySorted (fun a b => (a.1 <= b.1)%N) idx /\
     forall i k, (i, k) ∈ idx <-> k ∈ map fst props /\ array_index k = Some i) /\
  (NoDup (map fst props) ->
   Forall (fun kv => array_index kv.1 = None) props ->
   exists r' evs,
     set (inr props) val self w = Done r' (extend w evs) /\
     filter (fun e => is_call e = false) evs = writes_of props).
Proof.
  split_and!.
  - done.
  - apply set_props_run.
  - intros p. destruct (set_prop_effects p val self w) as (evs & E & F).
    do 2 eexists. split; [exact E|]. split; [exact F|]. by repeat split.
  - exists (index_keys props). split_and!.
    + unfold obj_keys. by rewrite named_keys_filter.
    + apply index_keys_sorted.
    + intros i k. apply elem_of_index_keys.
  - intros Hnd Hnamed.
    destruct (set_props_run props (obj_keys props) self w)
      as (r' & evs & E & F & _).
    exists r', evs. split; [exact E|]. rewrite F, obj_keys_named by done.
    apply writes_in_order. intros [k v] Hin. by apply obj_get_in.
Qed.

(** C9, as amended.  If the adapter stores what it is given, then
    [set(p, v)] followed by [get(p)] returns [v], for every [p] other than
    ["this"] and every [v], provided that, when [v] is [undefined], the view
    delegate has neither a function nor a truthy value under [p]. *)
Theorem set_then_get (p : string) (v : value) self w :
  stores_what_it_is_given A ->
  p <> "this" ->
  (v = VUndefined ->
   is_function (heap_get (heap w) (view self) p) = false /\
   truthy (heap_get (heap w) (view self) p) = false) ->
  exists r' w',
    set (inl p) v self w = Done r' w' /\ get p r' w' = Done v w'.
Proof.
  intros Hstore Hp Hv. simpl. do 2 eexists. split; [apply set_prop_run|].
  set (r' := with_internal_set false _). set (w' := extend w _).
  assert (adapter_get (adapter r') p = v) as Ha by apply Hstore.
  rewrite get_run, Ha. apply String.eqb_neq in Hp as ->.
  destruct (decide (v = VUndefined)) as [->|Hdef].
  - destruct Hv as [Hf Ht]; [done|].
    rewrite bool_decide_eq_false_2 by (intros Hc; by apply Hc).
    change (heap w') with (heap w). change (view r') with (view self).
    destruct (heap_get (heap w) (view self) p); simpl in *; try done;
      by rewrite Ht.
  - by rewrite bool_decide_eq_true_2.
Qed.

(** ** More on the tree binder *)

Lemma walk_children_events (f : list nat -> node -> M unit) path kids :
  (forall p k, appends (f p k)) ->
  forall i w,
    walk_children f path i kids w =
      Done tt
        (extend w
           (concat (imap (fun j k => events_of (f (path ++ [i + j]) k) (heap w))
                         kids))).
Proof.
  intros Hf. induction kids as [|k kids IH]; intros i w; simpl.
  - by rewrite extend_nil.
  - rewrite (bind_done _ _ _ _ _ (appends_run_unit _ (Hf (path ++ [i]) k) w)).
    rewrite IH, extend_extend. simpl.
    rewrite Nat.add_0_r. do 3 f_equal. f_equal. apply imap_ext.
    intros j x _. simpl. by rewrite Nat.add_succ_r.
Qed.

(** X13. On a node that is not an element [_bind] activates no directive
    and binds no attribute: it binds the data of an attached text node
    that has interpolation, nothing on a detached one or on a node of
    another kind, and goes on into the children. *)
Theorem walk_non_element self path n w :
  nodeType n <> 1%Z ->
  walk (bind_visit self) path n w =
    Done tt
      (extend w
         (text_binding path n (parentNode n)
          ++ concat (imap (fun i k =>
               events_of (walk (bind_visit self) (path ++ [i]) k) (heap w))
               (childNodes n)))).
Proof. apply walk_non_element_aux. Qed.

Lemma appends_bindInterpolation n : forall path, appends (bindInterpolation path n).
Proof.
  induction n as [t attrs d p kids IH] using node_ind_children.
  intros path. simpl.
  apply appends_bind; [|intros _; apply appends_bind; [|intros _]].
  - apply appends_if; [apply appends_bind_attrs | apply appends_ret].
  - apply appends_if; [|apply appends_ret].
    apply appends_if; [apply appends_log | apply appends_ret].
  - by apply appends_walk_children.
Qed.

Lemma bindInterpolation_run_aux path n w :
  bindInterpolation path n w =
    Done tt
      (extend w
         ((if (nodeType n =? 1)%Z then interpolated path (attributes n) else [])
          ++ text_binding path n true
          ++ concat (imap (fun i k =>
               events_of (bindInterpolation (path ++ [i]) k) (heap w))
               (childNodes n)))).
Proof.
  destruct n as [t attrs d p kids]. simpl.
  assert (forall w0,
            (if (t =? 1)%Z then bind_attrs path attrs else mret tt) w0 =
              Done tt (extend w0 (if (t =? 1)%Z then interpolated path attrs
                                  else []))) as Hattrs.
  { intros w0.
    destruct (t =? 1)%Z; [apply bind_attrs_run | by rewrite extend_nil]. }
  assert (forall w0,
            (if (t =? 3)%Z then
               if hasInterpolation d then new_TextBinding path else mret tt
             else mret tt) w0 =
              Done tt (extend w0 (text_binding path (Node t attrs d p kids) true)))
    as Htext.
  { intros w0. unfold text_binding, new_TextBinding. simpl.
    rewrite andb_true_r.
    destruct (t =? 3)%Z; simpl; [|by rewrite extend_nil].
    destruct (hasInterpolation d); [done | by rewrite extend_nil]. }
  rewrite (bind_done _ _ _ _ _ (Hattrs w)).
  rewrite (bind_done _ _ _ _ _ (Htext _)).
  rewrite walk_children_events by (intros; apply appends_bindInterpolation).
  by rewrite !extend_extend.
Qed.

(** X2. [bindInterpolation] binds the interpolated attributes of an
    element, the data of a text node that has interpolation whether the
    node is attached or not, and then does the same for every child in
    turn; the binding registry plays no part. *)
Theorem bindInterpolation_run path n w :
  bindInterpolation path n w =
    Done tt
      (extend w
         ((if (nodeType n =? 1)%Z then interpolated path (attributes n) else [])
          ++ text_binding path n true
          ++ concat (imap (fun i k =>
               events_of (bindInterpolation (path ++ [i]) k) (heap w))
               (childNodes n)))).
Proof. apply bindInterpolation_run_aux. Qed.

Lemma undirected_events self h n :
  undirected (bindings self) h (obj_keys (heap_obj h (bindings self))) n = true ->
  forall path,
    events_of (walk (bind_visit self) path n) h =
      events_of (bindInterpolation path n) h.
Proof.
  induction n as [t attrs d p kids IH] using node_ind_children.
  intros Hn path. simpl in Hn. apply andb_true_iff in Hn as [Hown Hkids].
  assert (imap (fun i k => events_of (walk (bind_visit self) (path ++ [i]) k) h)
               kids
          = imap (fun i k => events_of (bindInterpolation (path ++ [i]) k) h)
                 kids) as Ekids.
  { apply imap_ext. intros i k Hik.
    rewrite Forall_lookup in IH. apply (IH i k Hik).
    rewrite forallb_forall in Hkids. apply Hkids.
    apply list_elem_of_In. by eapply list_elem_of_lookup_2. }
  erewrite (events_of_done (bindInterpolation _ _));
    [|apply bindInterpolation_run_aux].
  destruct (t =? 1)%Z eqn:Et.
  - apply Z.eqb_eq in Et as ->.
    erewrite (events_of_done (walk _ _ _)); [|by apply walk_element].
    cbn [heap nodeType attributes childNodes]. rewrite Ekids.
    destruct (activated (bindings self) h (Node 1 attrs d p kids)
                (obj_keys (heap_obj h (bindings self)))); [|done].
    done.
  - assert (t <> 1%Z) as Ht by (by apply Z.eqb_neq).
    erewrite (events_of_done (walk _ _ _)); [|by apply walk_non_element_aux].
    cbn [heap nodeType attributes childNodes parentNode]. rewrite Ekids, Et.
    simpl. f_equal. unfold text_binding. simpl.
    destruct (t =? 3)%Z; [|done]. simpl in *. by rewrite Hown.
Qed.

(** X1. On a tree where no directive of the registry applies to any
    element and every text node is attached, the [_bind] traversal installs
    exactly what [bindInterpolation] installs, in the same order. *)
Theorem bind_agrees_with_bindInterpolation self path n w :
  undirected (bindings self) (heap w)
             (obj_keys (heap_obj (heap w) (bindings self))) n = true ->
  walk (bind_visit self) path n w = bindInterpolation path n w.
Proof.
  intros Hn.
  rewrite (appends_run_unit _ (appends_walk self n path) w).
  rewrite (appends_run_unit _ (appends_bindInterpolation n path) w).
  by rewrite undirected_events.
Qed.

(** ** More on rendering and teardown *)

(** X4. [destroy] reads the parent of the rendered root first, so it
    throws on an orchestrator that was never rendered and on one that was
    already destroyed; in both cases nothing has been changed. *)
Theorem destroy_needs_rendered_root self w :
  (el self = None -> destroy self w = Thrown "TypeError" w) /\
  (forall root, el self = Some root ->
     exists r1 w1,
       destroy self w = Done r1 w1 /\ destroy r1 w1 = Thrown "TypeError" w1).
Proof.
  split.
  - intros Hel. unfold destroy. by rewrite Hel.
  - intros root Hel. unfold destroy at 1. rewrite Hel.
    set (r := with_adapter (adapter_unsubscribeAll (adapter self)) self).
    assert (exists w0, (if parentNode root then log RemoveChild else mret tt) w
                       = Done tt w0) as (w0 & E0).
    { destruct (parentNode root); by eexists. }
    rewrite (bind_done _ _ _ _ _ E0).
    rewrite (bind_done _ _ _ _ _
               (appends_run_unit _ (appends_emit "destroyed" [] r) w0)).
    by do 2 eexists.
Qed.

(** X5. [destroy] detaches the root if it is attached, emits [destroyed]
    to the listeners of that event, and leaves the orchestrator without any
    listener: a later [set] writes the adapter and emits the change event
    but calls no subscriber. *)
Theorem destroy_removes_listeners self w root :
  el self = Some root ->
  let unsubscribed := with_adapter (adapter_unsubscribeAll (adapter self)) self in
  let evs := (if parentNode root then [RemoveChild] else [])
             ++ Emit "destroyed" []
             :: events_of (invoke_all (listeners "destroyed" self) []
                                      unsubscribed) (heap w) in
  exists r1,
    destroy self w = Done r1 (extend w evs) /\
    adapter r1 = adapter_unsubscribeAll (adapter self) /\
    (forall event, listeners event r1 = []) /\
    (forall p v,
       Forall (fun c => is_guarded c.1 = true) (adapter_set (adapter r1) p v).2 ->
       events_of (set (inl p) v r1) (heap w) =
         [AdapterSet p v; Emit ("change " +:+ p) [v]]).
Proof.
  intros Hel unsubscribed evs. eexists. split_and!.
  - unfold destroy. rewrite Hel. fold unsubscribed.
    erewrite bind_done.
    2:{ instantiate (1 := extend w (if parentNode root then [RemoveChild]
                                    else [])).
        instantiate (1 := tt).
        destruct (parentNode root); [done | by rewrite extend_nil]. }
    unfold emit.
    erewrite bind_done.
    2:{ erewrite bind_done; [|apply log_extend].
        by apply appends_run_unit, appends_invoke_all. }
    unfold mret, M_ret. rewrite !extend_extend. done.
  - done.
  - intros event. unfold listeners. simpl. by rewrite lookup_empty.
  - intros p v Hcalls. eapply events_of_done. simpl.
    rewrite set_prop_run. simpl.
    rewrite notify_guarded by done. unfold listeners at 1. simpl.
    by rewrite lookup_empty.
Qed.

(** ** More on registration *)

Lemma obj_get_set_other o k k' v :
  k <> k' -> obj_get (obj_set o k v) k' = obj_get o k'.
Proof.
  intros Hne. induction o as [|[k0 v0] o IH]; simpl.
  - by apply String.eqb_neq in Hne as ->.
  - destruct (String.eqb k0 k) eqn:E; simpl; [|by rewrite IH].
    apply String.eqb_eq in E as ->. by apply String.eqb_neq in Hne as ->.
Qed.

Lemma obj_get_foldl_set (f : string -> value) keys : forall o k,
  obj_get (foldl (fun o k => obj_set o k (f k)) o keys) k =
    if bool_decide (k ∈ keys) then f k else obj_get o k.
Proof.
  induction keys as [|k0 keys IH]; intros o k; simpl.
  - done.
  - rewrite IH. destruct (decide (k0 = k)) as [->|Hne].
    + rewrite obj_get_set_eq.
      case_bool_decide; case_bool_decide as Hin; try done.
      all: exfalso; apply Hin; by left.
    + rewrite obj_get_set_other by done.
      case_bool_decide as Hin1; case_bool_decide as Hin2; try done.
      * exfalso. apply Hin2. by right.
      * exfalso. inversion Hin2; by subst.
Qed.

Lemma heap_obj_lookup h l : l < length h -> h !! l = Some (heap_obj h l).
Proof.
  intros Hl. unfold heap_obj.
  destruct (h !! l) as [o|] eqn:E; [done|]. apply lookup_ge_None in E. lia.
Qed.

(** What the object form of [bind] leaves on an orchestrator that has no
    rendered root. *)
Lemma bind_names_registry (props : obj) keys self : forall w,
  el self = None -> bindings self < length (heap w) ->
  forEach (fun key self => bind_name key (obj_get props key) self) keys self w =
    Done self
      (mkWorld (<[bindings self :=
                  foldl (fun o k => obj_set o k (obj_get props k))
                        (heap_obj (heap w) (bindings self)) keys]> (heap w))
               (trace w)).
Proof.
  induction keys as [|k keys IH]; intros w Hel Hreg; simpl.
  - rewrite list_insert_id by (by apply heap_obj_lookup). by destruct w.
  - erewrite bind_done; [|by apply bind_name_unrendered].
    rewrite IH; [|done|simpl; by rewrite length_insert]. simpl.
    by rewrite heap_obj_write_eq, list_insert_insert_eq.
Qed.

Lemma registry_after_names (props : obj) keys b h k :
  b < length h ->
  heap_get (<[b := foldl (fun o k => obj_set o k (obj_get props k))
                         (heap_obj h b) keys]> h) b k =
    if bool_decide (k ∈ keys) then obj_get props k else heap_get h b k.
Proof.
  intros Hb. unfold heap_get at 1. rewrite list_lookup_insert_eq by done.
  rewrite obj_get_foldl_set. unfold heap_get.
  by rewrite (heap_obj_lookup h b Hb).
Qed.

(** X8. The object form of [bind] registers every key of the mapping
    when no root is rendered.  With a rendered root it throws at the first
    key, having registered nothing; with an empty mapping it returns
    normally even then. *)
Theorem bind_object_form (props : obj) (fn : value) self w :
  (obj_keys props = [] -> bind (inr props) fn self w = Done self w) /\
  (el self <> None -> obj_keys props <> [] ->
     bind (inr props) fn self w =
       Thrown ".bind() cannot be called after .render()" w) /\
  (el self = None -> bindings self < length (heap w) ->
     exists w',
       bind (inr props) fn self w = Done self w' /\
       trace w' = trace w /\
       (forall k, heap_get (heap w') (bindings self) k =
          if bool_decide (k ∈ obj_keys props) then obj_get props k
          else heap_get (heap w) (bindings self) k) /\
       (forall l, l <> bindings self -> heap w' !! l = heap w !! l)).
Proof.
  split_and!.
  - intros Hk. simpl. by rewrite Hk.
  - intros Hel Hk. simpl. destruct (obj_keys props) as [|k keys]; [done|].
    simpl. erewrite bind_thrown_step; [done|]. by apply bind_name_rendered.
  - intros Hel Hreg. eexists. split; [by apply bind_names_registry|].
    simpl. split_and!; [done| |].
    + intros k. by apply registry_after_names.
    + intros l Hl. by rewrite list_lookup_insert_ne.
Qed.

(** ** More on construction *)

Lemma heap_get_app h extra l k :
  l < length h -> heap_get (h ++ extra) l k = heap_get h l k.
Proof. intros Hl. unfold heap_get. by rewrite lookup_app_l. Qed.

Lemma obj_get_absent o k : k ∉ obj_keys o -> obj_get o k = VUndefined.
Proof.
  rewrite elem_of_obj_keys.
  induction o as [|[k' v] o IH]; simpl; [done|]. intros Hk.
  destruct (String.eqb k' k) eqn:E.
  - apply String.eqb_eq in E as ->. exfalso. apply Hk. by left.
  - apply IH. intros Hin. apply Hk. by right.
Qed.

(** X6. The constructor always runs the built-in plugin, so creating a
    subview writes every built-in binding into the registry it shares with
    its parent: a handler the parent had registered under a built-in name
    is replaced by the built-in one, and every other entry is kept. *)
Theorem subview_reinstalls_builtins (m : value) self w :
  bindings self < length (heap w) ->
  exists s w1,
    subview m self w = Done s w1 /\
    bindings s = bindings self /\
    forall k,
      heap_get (heap w1) (bindings self) k =
        if bool_decide (k ∈ obj_keys default_bindings)
        then obj_get default_bindings k
        else heap_get (heap w) (bindings self) k.
Proof.
  intros Hreg. unfold subview, new_Reactive. simpl.
  destruct (truthy m) eqn:Em.
  - do 2 eexists. split.
    { erewrite bind_done; [|reflexivity].
      erewrite bind_done; [|reflexivity].
      erewrite bind_done; [|reflexivity].
      unfold use, bindings_plugin. simpl.
      by apply bind_names_registry. }
    split; [done|]. intros k. simpl. by apply registry_after_names.
  - do 2 eexists. split.
    { erewrite bind_done; [|reflexivity].
      erewrite bind_done; [|reflexivity].
      erewrite bind_done; [|reflexivity].
      unfold use, bindings_plugin. simpl.
      apply bind_names_registry; [done|]. simpl. rewrite length_app. lia. }
    split; [done|]. intros k. simpl.
    rewrite registry_after_names by (rewrite length_app; lia).
    by rewrite heap_get_app.
Qed.

(** X7. An orchestrator constructed without options gets a view delegate
    and a registry of its own, both new objects: the registry holds the
    built-in bindings and nothing else, and neither the construction nor a
    later [bind] on it changes any object that existed before. *)
Theorem new_Reactive_own_registry (m : value) w :
  exists r w1,
    new_Reactive m None w = Done r w1 /\
    length (heap w) <= view r /\ view r < bindings r /\
    bindings r < length (heap w1) /\
    (truthy m = true -> model r = m) /\
    (truthy m = false -> model r = VObj (length (heap w))) /\
    (forall k, heap_get (heap w1) (bindings r) k = obj_get default_bindings k) /\
    (forall l, l < length (heap w) -> heap w1 !! l = heap w !! l) /\
    forall name fn,
      exists w2,
        bind (inl name) fn r w1 = Done r w2 /\
        forall l, l < length (heap w) -> heap w2 !! l = heap w !! l.
Proof.
  unfold new_Reactive. simpl.
  assert (forall h (b : nat) k,
            b < length h -> heap_obj h b = [] ->
            heap_get (<[b := foldl (fun o k => obj_set o k (obj_get default_bindings k))
                                   (heap_obj h b) (obj_keys default_bindings)]> h) b k
              = obj_get default_bindings k) as Hfresh.
  { intros h b k Hb Hempty. rewrite registry_after_names by done.
    case_bool_decide as Hin; [done|].
    unfold heap_get. rewrite (heap_obj_lookup h b Hb), Hempty. simpl.
    by rewrite obj_get_absent. }
  destruct (truthy m) eqn:Em.
  - set (h := (heap w ++ [[]]) ++ [[]]).
    exists (mkReactive (mkOpt None None None) m (adapter_new m)
                       (length (heap w)) (S (length (heap w))) None false ∅).
    eexists. split.
    { erewrite bind_done; [|reflexivity].
      erewrite bind_done; [|reflexivity].
      erewrite bind_done; [|reflexivity]. simpl.
      rewrite length_app. simpl. rewrite Nat.add_1_r.
      unfold use, bindings_plugin. simpl.
      apply bind_names_registry; [done|]. simpl. rewrite !length_app. simpl. lia. }
    simpl. fold h.
    assert (length h = S (S (length (heap w)))) as Hlen.
    { unfold h. rewrite !length_app. simpl. lia. }
    assert (heap_obj h (S (length (heap w))) = []) as Hempty.
    { unfold heap_obj, h. rewrite lookup_app_r; rewrite length_app; simpl; [|lia].
      by replace (S (length (heap w)) - (length (heap w) + 1)) with 0 by lia. }
    split_and!; try done; try lia.
    + rewrite length_insert. lia.
    + intros k. apply Hfresh; [lia | done].
    + intros l Hl. rewrite list_lookup_insert_ne by lia.
      unfold h. rewrite !lookup_app_l; [done | lia | rewrite length_app; lia].
    + intros name fn. eexists. split; [by apply bind_name_unrendered|].
      simpl. intros l Hl. rewrite !list_lookup_insert_ne by lia.
      unfold h. rewrite !lookup_app_l; [done | lia | rewrite length_app; lia].
  - set (h := ((heap w ++ [[]]) ++ [[]]) ++ [[]]).
    exists (mkReactive (mkOpt None None None) (VObj (length (heap w)))
                       (adapter_new (VObj (length (heap w))))
                       (S (length (heap w))) (S (S (length (heap w))))
                       None false ∅).
    eexists. split.
    { erewrite bind_done; [|reflexivity].
      erewrite bind_done; [|reflexivity].
      erewrite bind_done; [|reflexivity]. simpl.
      rewrite !length_app. simpl. rewrite !Nat.add_1_r.
      unfold use, bindings_plugin. simpl.
      apply bind_names_registry; [done|]. simpl. rewrite !length_app. simpl. lia. }
    simpl. fold h.
    assert (length h = S (S (S (length (heap w))))) as Hlen.
    { unfold h. rewrite !length_app. simpl. lia. }
    assert (heap_obj h (S (S (length (heap w)))) = []) as Hempty.
    { unfold heap_obj, h.
      rewrite lookup_app_r; rewrite !length_app; simpl; [|lia].
      by replace (S (S (length (heap w))) - (length (heap w) + 1 + 1))
        with 0 by lia. }
    split_and!; try done; try lia.
    + rewrite length_insert. lia.
    + intros k. apply Hfresh; [lia | done].
    + intros l Hl. rewrite list_lookup_insert_ne by lia.
      unfold h. rewrite !lookup_app_l; [done | lia | | ];
        rewrite ?length_app; simpl; lia.
    + intros name fn. eexists. split; [by apply bind_name_unrendered|].
      simpl. intros l Hl. rewrite !list_lookup_insert_ne by lia.
      unfold h. rewrite !lookup_app_l; [done | lia | | ];
        rewrite ?length_app; simpl; lia.
Qed.

(** ** More on subscriptions *)

Lemma listeners_off_eq event (fn : callback) self :
  listeners event (off event fn self) = remove_first fn (listeners event self).
Proof.
  unfold listeners, off.
  destruct (_callbacks self !! event) as [cbs|] eqn:E; simpl.
  - by rewrite lookup_insert_eq.
  - by rewrite E.
Qed.

Lemma listeners_off_ne event event' (fn : callback) self :
  event <> event' ->
  listeners event' (off event fn self) = listeners event' self.
Proof.
  intros Hne. unfold listeners, off.
  destruct (_callbacks self !! event) as [cbs|] eqn:E; simpl; [|done].
  by rewrite lookup_insert_ne.
Qed.

Lemma listeners_unsub_eq prop (fn : callback) self :
  listeners ("change " +:+ prop) (unsub prop fn self) =
    remove_first fn (listeners ("change " +:+ prop) self).
Proof. apply listeners_off_eq. Qed.

Lemma listeners_unsub_ne prop (fn : callback) event self :
  event <> "change " +:+ prop ->
  listeners event (unsub prop fn self) = listeners event self.
Proof.
  intros Hne. unfold unsub.
  change (listeners ?e (with_adapter ?a ?r)) with (listeners e r).
  by apply listeners_off_ne.
Qed.

Lemma remove_first_last (fn : callback) cbs :
  fn ∉ cbs -> remove_first fn (cbs ++ [fn]) = cbs.
Proof.
  induction cbs as [|cb cbs IH]; intros Hnot; simpl.
  - by rewrite decide_True.
  - rewrite decide_False.
    + rewrite IH; [done|]. intros Hin. apply Hnot. by right.
    + intros ->. apply Hnot. by left.
Qed.

Lemma remove_first_app_r (fn : callback) cbs rest :
  fn ∉ cbs -> remove_first fn (cbs ++ fn :: rest) = cbs ++ rest.
Proof.
  induction cbs as [|cb cbs IH]; intros Hnot; simpl.
  - by rewrite decide_True.
  - rewrite decide_False.
    + rewrite IH; [done|]. intros Hin. apply Hnot. by right.
    + intros ->. apply Hnot. by left.
Qed.

Lemma listeners_sub_other prop (fn : callback) event self :
  event <> "change " +:+ prop ->
  event <> "change " +:+ hd "" (split_dot prop) ->
  listeners event (sub prop fn self) = listeners event self.
Proof.
  intros Hprop Hparent.
  assert (forall p (cb : callback) r,
            event <> "change " +:+ p ->
            listeners event (sub_register p cb r) = listeners event r) as Hreg.
  { intros p cb r Hne. unfold sub_register.
    change (listeners ?e (with_adapter ?a ?r0)) with (listeners e r0).
    by apply listeners_on_ne. }
  destruct (decide (1 < length (split_dot prop))) as [Hlen|Hlen].
  - rewrite sub_multi by done. by rewrite !Hreg.
  - rewrite sub_single by done. by rewrite Hreg.
Qed.

(** X9. [unsub] after [sub] puts the change-event listeners back: for a
    single-segment property and a function that was not subscribed before,
    every event has the listeners it had before the [sub]. *)
Theorem sub_then_unsub_listeners (p : string) (fn : callback) self :
  ~ 1 < length (split_dot p) ->
  fn ∉ listeners ("change " +:+ p) self ->
  forall event,
    listeners event (unsub p fn (sub p fn self)) = listeners event self.
Proof.
  intros Hsingle Hnew event.
  destruct (decide (event = "change " +:+ p)) as [->|Hne].
  - rewrite listeners_unsub_eq, listeners_sub. by apply remove_first_last.
  - rewrite listeners_unsub_ne by done.
    apply listeners_sub_other; [done|].
    destruct (split_dot p) as [|a [|b rest]] eqn:E; simpl in *; try lia.
    + by apply split_dot_nonempty_aux in E.
    + assert (a = p) as -> by (by apply split_dot_single in E). done.
Qed.

(** X10. [unsub] does not take back the forwarding listener that [sub] put
    on the first segment of a two-segment path: after [sub('a.b', fn)] and
    [unsub('a.b', fn)], [set('a', y)] still calls [fn], with the value of
    [get('a.b')]. *)
Theorem unsub_keeps_parent_forwarder (prop a b : string) (f : nat) (y : value)
    self w :
  split_dot prop = [a; b] ->
  let unsubscribed := unsub prop (Fn f) (sub prop (Fn f) self) in
  listeners ("change " +:+ a) unsubscribed =
    listeners ("change " +:+ a) self ++ [Nested prop (Fn f)] /\
  exists r' pre nested,
    set (inl a) y unsubscribed w = Done r' (extend w (pre ++ [Call f [nested]])) /\
    get prop r' (extend w (pre ++ [Call f [nested]]))
      = Done nested (extend w (pre ++ [Call f [nested]])).
Proof.
  intros Hsplit unsubscribed.
  assert (1 < length (split_dot prop)) as Hlen by (rewrite Hsplit; simpl; lia).
  assert (hd "" (split_dot prop) = a) as Hhd by (by rewrite Hsplit).
  assert (listeners ("change " +:+ a) unsubscribed =
            listeners ("change " +:+ a) self ++ [Nested prop (Fn f)]) as Hl.
  { unfold unsubscribed. rewrite listeners_unsub_ne.
    - rewrite <- Hhd. by apply listeners_sub_parent.
    - intros E. apply change_inj in E. subst a.
      by apply hd_split_dot_ne in Hlen. }
  split; [exact Hl|].
  simpl. rewrite set_prop_run, Hl, events_of_invoke_all_app.
  set (guarded := with_adapter _ (with_internal_set true unsubscribed)).
  destruct (get_value prop guarded (heap w)) as (nested & Hget).
  assert (events_of (invoke_all [Nested prop (Fn f)] [y] guarded) (heap w)
          = [Call f [nested]]) as ->.
  { unfold events_of. simpl.
    erewrite bind_done; [|erewrite bind_done; [|apply Hget]; reflexivity].
    done. }
  rewrite app_comm_cons, (app_comm_cons _ _ (Emit _ _)), !app_assoc.
  do 3 eexists. split; [reflexivity|].
  erewrite get_same; [apply Hget|done..].
Qed.

(** X11. For a path of several segments [sub] forwards from the first
    segment only: it subscribes the adapter to the first segment and to the
    whole path, and the listeners of every other event, the change events
    of longer prefixes included, stay as they were. *)
Theorem sub_forwards_first_segment_only (prop : string) (fn : callback) self :
  1 < length (split_dot prop) ->
  adapter (sub prop fn self) =
    adapter_subscribe
      (adapter_subscribe (adapter self) (hd "" (split_dot prop))
                         (Guarded (Nested prop fn)))
      prop (Guarded fn) /\
  forall event,
    event <> "change " +:+ prop ->
    event <> "change " +:+ hd "" (split_dot prop) ->
    listeners event (sub prop fn self) = listeners event self.
Proof.
  intros Hlen. split.
  - by rewrite sub_multi.
  - intros event Hprop Hparent. by apply listeners_sub_other.
Qed.

(** X12. [sub] does not look for an earlier subscription of the same
    function: subscribed twice, it is called twice by each [set], and one
    [unsub] takes one of the two subscriptions away. *)
Theorem sub_twice (p : string) (f : nat) (v : value) self w :
  let twice := sub p (Fn f) (sub p (Fn f) self) in
  listeners ("change " +:+ p) twice =
    listeners ("change " +:+ p) self ++ [Fn f; Fn f] /\
  (exists r' pre,
     set (inl p) v twice w =
       Done r' (extend w (pre ++ [Call f [v]; Call f [v]]))) /\
  (Fn f ∉ listeners ("change " +:+ p) self ->
   listeners ("change " +:+ p) (unsub p (Fn f) twice) =
     listeners ("change " +:+ p) self ++ [Fn f]).
Proof.
  intros twice.
  assert (listeners ("change " +:+ p) twice =
            listeners ("change " +:+ p) self ++ [Fn f; Fn f]) as Hl.
  { unfold twice. rewrite !listeners_sub. by rewrite <- app_assoc. }
  split_and!.
  - exact Hl.
  - do 2 eexists. simpl. rewrite set_prop_run, Hl, events_of_invoke_all_app.
    rewrite app_comm_cons, (app_comm_cons _ _ (Emit _ _)), !app_assoc.
    reflexivity.
  - intros Hnew. rewrite listeners_unsub_eq, Hl.
    by rewrite remove_first_app_r.
Qed.

(** ** More on the guard and on activation *)

(** X14. The own-write guard is a flag, not a count: [set] leaves it down
    when it returns, also when it was up when the call began, so after a
    [set] made during another [set] the adapter listeners are no longer
    suppressed. *)
Theorem set_lowers_guard (p : string) (v : value) self w :
  exists r' w',
    set (inl p) v self w = Done r' w' /\
    _internal_set r' = false /\
    forall f args,
      events_of (invoke (Guarded (Fn f)) args r') (heap w') = [Call f args].
Proof.
  do 2 eexists. split; [apply set_prop_run|]. by split.
Qed.

Lemma activated_applies `{!Host} reg h n names k :
  k ∈ activated reg h n names -> applies reg h n k = true.
Proof.
  induction names as [|k0 names IH]; simpl; [by intros Hin; inversion Hin|].
  destruct (applies reg h n k0) eqn:Ek; [|done].
  intros Hin. inversion Hin as [|? ? ? Hin']; subst; [done|].
  destruct (requests_skip reg h n k0); [by inversion Hin' | by apply IH].
Qed.

(** X15. On an element [_bind] activates a directive only if [attrs]
    has a truthy entry under its name (an attribute of the element, or a
    name the table inherits) and the registry holds a truthy handler under
    it, and it activates the handler the registry holds: a name registered
    with a missing handler is passed over. *)
Theorem activations_are_applicable self path n w :
  nodeType n = 1%Z ->
  exists skip evs,
    bind_visit self path n w = Done skip (extend w evs) /\
    forall p k fn,
      NamedBinding p k fn ∈ evs ->
      p = path /\
      k ∈ obj_keys (heap_obj (heap w) (bindings self)) /\
      attrs_has (attributes n) k = true /\
      fn = heap_get (heap w) (bindings self) k /\
      truthy fn = true.
Proof.
  intros Ht. do 2 eexists. split; [by apply bind_visit_element|].
  intros p k fn Hin. apply elem_of_app in Hin as [Hin|Hin].
  - apply list_elem_of_fmap in Hin as (k' & E & Hk').
    unfold activation in E. inversion E; subst.
    pose proof (activated_applies _ _ _ _ _ Hk') as Happ.
    unfold applies in Happ. apply andb_true_iff in Happ as [Hattr Htruthy].
    split_and!; try done.
    eapply elem_of_sublist; [exact Hk' | apply activated_sublist].
  - destruct (existsb _ _); [by inversion Hin|].
    unfold interpolated in Hin.
    apply list_elem_of_fmap in Hin as (attr & E & _). inversion E.
Qed.

End Properties.

(** ** The properties on concrete inputs *)

#[local] Existing Instance host0.

Example new_Reactive_fresh :
  new_Reactive (A := Store) VUndefined None world0 = Done fresh fresh_world.
Proof. reflexivity. Qed.

Lemma store_stores : stores_what_it_is_given Store.
Proof. intros a prop val. simpl. apply obj_get_set_eq. Qed.

Lemma get_precedence_witness :
  get "this" titled titled_world = Done (VObj 0) titled_world /\
  get "name" titled titled_world = Done (VStr "Ann") titled_world /\
  get "shout" titled titled_world = Done (VNum 5) titled_world /\
  get "title" titled titled_world = Done (VStr "Untitled") titled_world /\
  get "count" titled titled_world = Done VUndefined titled_world.
Proof.
  split_and!.
  - destruct (get_precedence "this" titled titled_world) as (Hthis & _).
    apply Hthis. reflexivity.
  - destruct (get_precedence "name" titled titled_world) as (_ & Hmodel & _).
    apply Hmodel; discriminate.
  - destruct (get_precedence "shout" titled titled_world)
      as (_ & _ & Hcall & _).
    apply (Hcall ltac:(discriminate) eq_refl 5 eq_refl).
  - destruct (get_precedence "title" titled titled_world)
      as (_ & _ & _ & Hplain & _).
    apply (Hplain ltac:(discriminate) eq_refl eq_refl eq_refl).
  - destruct (get_precedence "count" titled titled_world)
      as (_ & _ & _ & _ & Habsent).
    apply (Habsent ltac:(discriminate) eq_refl eq_refl eq_refl).
Defined.

Lemma bind_skip_discipline_witness :
  nodeType repeated = 1%Z /\
  walk (bind_visit fresh) [] repeated fresh_world =
    Done tt (extend fresh_world [NamedBinding [] "each" (VFun 100)]) /\
  walk (bind_visit fresh) [] greeting fresh_world =
    Done tt (extend fresh_world
               [AttrBinding [] "class"; NamedBinding [0] "each" (VFun 100);
                TextBinding [1]]) /\
  walk (bind_visit fresh) [] (element [] []) inheriting_world =
    Done tt (extend inheriting_world [NamedBinding [] "toString" (VFun 7)]).
Proof.
  split; [reflexivity|]. split_and!.
  - destruct (bind_skip_discipline fresh [] repeated fresh_world eq_refl)
      as (_ & _ & _ & Hwalk & _).
    exact Hwalk.
  - destruct (bind_skip_discipline fresh [] greeting fresh_world eq_refl)
      as (_ & _ & _ & Hwalk & _).
    exact Hwalk.
  - destruct (bind_skip_discipline fresh [] (element [] []) inheriting_world
                eq_refl)
      as (_ & _ & _ & Hwalk & _).
    exact Hwalk.
Defined.

Lemma set_suppresses_adapter_listener_witness :
  let subscribed := sub "p" (Fn 7) fresh in
  subscribers (adapter subscribed) = [("p", Guarded (Fn 7))] /\
  events_of (set (inl "p") (VNum 3) subscribed) (heap fresh_world) =
    [AdapterSet "p" (VNum 3); Emit "change p" [VNum 3]; Call 7 [VNum 3]] /\
  exists evs,
    external_write "p" (VNum 3) subscribed fresh_world =
      Done (with_adapter (adapter_set (adapter subscribed) "p" (VNum 3)).1
                         subscribed)
           (extend fresh_world evs) /\
    Call 7 [VNum 3] ∈ evs.
Proof.
  intros subscribed.
  destruct (set_suppresses_adapter_listener "p" 7 (VNum 3) fresh fresh_world)
    as (Hadapter & _ & _ & Hset & Hexternal).
  fold subscribed in Hadapter, Hset, Hexternal. split_and!.
  - rewrite Hadapter. reflexivity.
  - unfold events_of.
    change (mkWorld (heap fresh_world) []) with fresh_world.
    rewrite Hset; [reflexivity|].
    vm_compute. repeat constructor.
  - apply Hexternal; [reflexivity|]. vm_compute. constructor.
Defined.

Lemma sub_nested_path_witness :
  split_dot "a.b" = ["a"; "b"] /\
  (exists r' pre,
     set (inl "a.b") (VNum 1) (sub "a.b" (Fn 7) fresh) fresh_world =
       Done r' (extend fresh_world (pre ++ [Call 7 [VNum 1]]))) /\
  (exists r' pre nested,
     set (inl "a") (VNum 2) (sub "a.b" (Fn 7) fresh) fresh_world =
       Done r' (extend fresh_world (pre ++ [Call 7 [nested]])) /\
     get "a.b" r' (extend fresh_world (pre ++ [Call 7 [nested]])) =
       Done nested (extend fresh_world (pre ++ [Call 7 [nested]]))).
Proof.
  split; [reflexivity|].
  apply (sub_nested_path "a.b" "a" "b" 7 (VNum 1) (VNum 2) fresh fresh_world).
  reflexivity.
Defined.




Lemma set_then_get_witness :
  stores_what_it_is_given Store /\ "name" <> "this" /\
  (exists r' w',
     set (inl "name") (VStr "Bo") titled titled_world = Done r' w' /\
     get "name" r' w' = Done (VStr "Bo") w') /\
  (exists r' w',
     set (inl "count") VUndefined titled titled_world = Done r' w' /\
     get "count" r' w' = Done VUndefined w').
Proof.
  split; [apply store_stores|]. split; [discriminate|]. split.
  - apply set_then_get; [apply store_stores | discriminate | discriminate].
  - apply set_then_get; [apply store_stores | discriminate |].
    intros _. split; reflexivity.
Defined.

Lemma set_object_form_witness :
  let ordered := [("b", VNum 1); ("a", VNum 2)] in
  let indexed := [("b", VNum 1); ("10", VNum 2); ("9", VNum 3)] in
  NoDup (map fst ordered) /\
  (exists r' evs,
     set (inr ordered) VUndefined fresh fresh_world
       = Done r' (extend fresh_world evs) /\
     filter (fun e => is_call e = false) evs =
       [AdapterSet "b" (VNum 1); Emit "change b" [VNum 1];
        AdapterSet "a" (VNum 2); Emit "change a" [VNum 2]]) /\
  obj_keys indexed = ["9"; "10"; "b"] /\
  events_of (set (inr indexed) VUndefined fresh) (heap fresh_world) =
    [AdapterSet "9" (VNum 3); Emit "change 9" [VNum 3];
     AdapterSet "10" (VNum 2); Emit "change 10" [VNum 2];
     AdapterSet "b" (VNum 1); Emit "change b" [VNum 1]].
Proof.
  intros ordered indexed.
  assert (NoDup (map fst ordered)) as Hnd.
  { apply NoDup_cons. split; [|apply NoDup_singleton].
    intros Hin. apply list_elem_of_singleton in Hin. discriminate. }
  split; [exact Hnd|]. split; [|split; reflexivity].
  destruct (set_object_form ordered VUndefined fresh fresh_world)
    as (_ & _ & _ & _ & Hordered).
  apply Hordered; [exact Hnd|]. by repeat constructor.
Defined.

(** C8 as stated fails: with the properties [b] and [1] added in that
    order, [set] writes [1] first, where calling [set(k, m[k])] in the order
    of insertion writes [b] first. *)
Lemma set_object_form_counterexample :
  let m := [("b", VNum 1); ("1", VNum 2)] in
  set (inr m) VUndefined fresh fresh_world <>
    forEach (fun k r => set (inl k) (obj_get m k) r) (map fst m)
            fresh fresh_world.
Proof. vm_compute. discriminate. Qed.

(** C9 as stated fails: ["this"] always resolves to the model, whatever was
    written under that name, and after writing [undefined] the view
    delegate's entry shows through.  The reference adapter stores what it
    is given. *)
Lemma set_then_get_counterexample :
  stores_what_it_is_given Store /\
  ~ (exists r' w',
       set (inl "this") (VNum 1) fresh fresh_world = Done r' w' /\
       get "this" r' w' = Done (VNum 1) w') /\
  ~ (exists r' w',
       set (inl "title") VUndefined titled titled_world = Done r' w' /\
       get "title" r' w' = Done VUndefined w').
Proof.
  split; [apply store_stores|]. split.
  - intros (r' & w' & E & G). vm_compute in E. injection E as <- <-.
    vm_compute in G. discriminate.
  - intros (r' & w' & E & G). vm_compute in E. injection E as <- <-.
    vm_compute in G. discriminate.
Qed.

Lemma bind_after_destroy_witness :
  let rendered := with_el (Some greeting) fresh in
  el rendered = Some greeting /\
  bind (inl "late") (VFun 9) rendered fresh_world =
    Thrown ".bind() cannot be called after .render()" fresh_world /\
  exists r1 w1,
    destroy rendered fresh_world = Done r1 w1 /\
    exists w2,
      bind (inl "late") (VFun 9) r1 w1 = Done r1 w2 /\
      heap_get (heap w2) (bindings fresh) "late" = VFun 9.
Proof.
  intros rendered. split; [reflexivity|].
  destruct (bind_after_destroy rendered fresh_world greeting eq_refl)
    as (r1 & w1 & E & _ & _ & _ & Hbind).
  destruct (Hbind "late" (VFun 9)) as (Hthrow & w2 & E2 & Hshared).
  split; [exact Hthrow|]. exists r1, w1. split; [exact E|].
  exists w2. split; [exact E2|].
  apply Hshared; [simpl; lia | reflexivity].
Defined.

(** C4.  [unsub] takes [fn] off the change event, but asks the adapter to
    remove [fn] where [sub] had subscribed a closure around [fn]: with an
    adapter that unsubscribes the listener it is given, the closure stays,
    and a change the adapter reports after [unsub] still calls [fn]. *)
Theorem unsub_leaves_adapter_listener :
  let unsubscribed := unsub "p" (Fn 7) (sub "p" (Fn 7) fresh) in
  listeners "change p" unsubscribed = [] /\
  subscribers (adapter unsubscribed) = [("p", Guarded (Fn 7))] /\
  events_of (set (inl "p") (VNum 3) unsubscribed) (heap fresh_world) =
    [AdapterSet "p" (VNum 3); Emit "change p" [VNum 3]] /\
  events_of (external_write "p" (VNum 3) unsubscribed) (heap fresh_world) =
    [Call 7 [VNum 3]].
Proof. vm_compute. done. Qed.

(** ** The further properties on concrete inputs *)

Lemma bind_agrees_with_bindInterpolation_witness :
  undirected (bindings fresh) (heap fresh_world)
             (obj_keys (heap_obj (heap fresh_world) (bindings fresh)))
             plain_tree = true /\
  walk (bind_visit fresh) [] plain_tree fresh_world =
    bindInterpolation [] plain_tree fresh_world /\
  events_of (bindInterpolation [] plain_tree) (heap fresh_world) =
    [AttrBinding [] "class"; TextBinding [0]].
Proof.
  split; [reflexivity|]. split; [|reflexivity].
  apply (bind_agrees_with_bindInterpolation fresh [] plain_tree fresh_world).
  reflexivity.
Defined.

Lemma walk_non_element_witness :
  nodeType detached_text <> 1%Z /\
  walk (bind_visit fresh) [] detached_text fresh_world = Done tt fresh_world /\
  walk (bind_visit fresh) [] (text "{x}") fresh_world =
    Done tt (extend fresh_world [TextBinding []]).
Proof.
  split; [discriminate|]. split.
  - rewrite (walk_non_element fresh [] detached_text fresh_world)
      by discriminate.
    reflexivity.
  - rewrite (walk_non_element fresh [] (text "{x}") fresh_world)
      by discriminate.
    reflexivity.
Defined.

Lemma destroy_needs_rendered_root_witness :
  destroy fresh fresh_world = Thrown "TypeError" fresh_world /\
  exists r1 w1,
    destroy (with_el (Some greeting) fresh) fresh_world = Done r1 w1 /\
    destroy r1 w1 = Thrown "TypeError" w1.
Proof.
  split.
  - apply (destroy_needs_rendered_root fresh fresh_world). reflexivity.
  - apply (destroy_needs_rendered_root (with_el (Some greeting) fresh)
             fresh_world) with (root := greeting).
    reflexivity.
Defined.

Lemma destroy_removes_listeners_witness :
  el listening = Some greeting /\
  exists r1,
    destroy listening fresh_world =
      Done r1 (extend fresh_world
                 [RemoveChild; Emit "destroyed" []; Call 3 []]) /\
    listeners "change p" r1 = [] /\
    events_of (set (inl "p") (VNum 3) r1) (heap fresh_world) =
      [AdapterSet "p" (VNum 3); Emit "change p" [VNum 3]].
Proof.
  split; [reflexivity|].
  destruct (destroy_removes_listeners listening fresh_world greeting eq_refl)
    as (r1 & E & Ha & Hnone & Hset).
  exists r1. split; [exact E|]. split; [apply Hnone|].
  apply Hset. rewrite Ha. vm_compute. constructor.
Defined.

Lemma bind_object_form_witness :
  bind (inr []) VUndefined (with_el (Some greeting) fresh) fresh_world =
    Done (with_el (Some greeting) fresh) fresh_world /\
  bind (inr [("greet", VFun 7)]) VUndefined (with_el (Some greeting) fresh)
       fresh_world =
    Thrown ".bind() cannot be called after .render()" fresh_world /\
  exists w',
    bind (inr [("greet", VFun 7); ("mine", VFun 8)]) VUndefined fresh fresh_world
      = Done fresh w' /\
    heap_get (heap w') (bindings fresh) "mine" = VFun 8 /\
    heap_get (heap w') (bindings fresh) "each" = VFun 100.
Proof.
  split_and!.
  - apply (bind_object_form [] VUndefined (with_el (Some greeting) fresh)
             fresh_world).
    reflexivity.
  - apply (bind_object_form [("greet", VFun 7)] VUndefined
             (with_el (Some greeting) fresh) fresh_world); discriminate.
  - destruct (bind_object_form [("greet", VFun 7); ("mine", VFun 8)] VUndefined
                fresh fresh_world) as (_ & _ & Hbefore).
    destruct (Hbefore eq_refl ltac:(simpl; lia)) as (w' & E & _ & Hreg & _).
    exists w'. split; [exact E|]. split.
    + rewrite (Hreg "mine"). reflexivity.
    + rewrite (Hreg "each"). reflexivity.
Defined.

Lemma subview_reinstalls_builtins_witness :
  bindings fresh < length (heap overridden_world) /\
  heap_get (heap overridden_world) (bindings fresh) "each" = VFun 9 /\
  exists s w1,
    subview VUndefined fresh overridden_world = Done s w1 /\
    heap_get (heap w1) (bindings fresh) "each" = VFun 100 /\
    heap_get (heap w1) (bindings fresh) "mine" = VFun 8.
Proof.
  split; [simpl; lia|]. split; [reflexivity|].
  destruct (subview_reinstalls_builtins VUndefined fresh overridden_world
              ltac:(simpl; lia)) as (s & w1 & E & _ & Hreg).
  exists s, w1. split; [exact E|]. split.
  - rewrite (Hreg "each"). reflexivity.
  - rewrite (Hreg "mine"). reflexivity.
Defined.

Lemma sub_then_unsub_listeners_witness :
  (~ 1 < length (split_dot "p")) /\
  (Fn 7 ∉ listeners "change p" fresh) /\
  listeners "change p" (unsub "p" (Fn 7) (sub "p" (Fn 7) fresh)) = [] /\
  listeners "destroyed" (unsub "p" (Fn 7) (sub "p" (Fn 7) fresh)) = [].
Proof.
  assert (~ 1 < length (split_dot "p")) as Hsingle by (simpl; lia).
  assert (Fn 7 ∉ listeners "change p" fresh) as Hnew
    by (intros Hin; inversion Hin).
  split; [exact Hsingle|]. split; [exact Hnew|]. split.
  - apply (sub_then_unsub_listeners "p" (Fn 7) fresh Hsingle Hnew "change p").
  - apply (sub_then_unsub_listeners "p" (Fn 7) fresh Hsingle Hnew "destroyed").
Defined.

Lemma unsub_keeps_parent_forwarder_witness :
  split_dot "a.b" = ["a"; "b"] /\
  let unsubscribed := unsub "a.b" (Fn 7) (sub "a.b" (Fn 7) fresh) in
  listeners "change a" unsubscribed = [Nested "a.b" (Fn 7)] /\
  exists r' pre nested,
    set (inl "a") (VNum 2) unsubscribed fresh_world =
      Done r' (extend fresh_world (pre ++ [Call 7 [nested]])) /\
    get "a.b" r' (extend fresh_world (pre ++ [Call 7 [nested]])) =
      Done nested (extend fresh_world (pre ++ [Call 7 [nested]])).
Proof.
  split; [reflexivity|].
  apply (unsub_keeps_parent_forwarder "a.b" "a" "b" 7 (VNum 2) fresh
           fresh_world).
  reflexivity.
Defined.

Lemma sub_forwards_first_segment_only_witness :
  1 < length (split_dot "a.b.c") /\
  subscribers (adapter (sub "a.b.c" (Fn 7) fresh)) =
    [("a", Guarded (Nested "a.b.c" (Fn 7))); ("a.b.c", Guarded (Fn 7))] /\
  listeners "change a.b" (sub "a.b.c" (Fn 7) fresh) = [].
Proof.
  assert (1 < length (split_dot "a.b.c")) as Hlen by (simpl; lia).
  destruct (sub_forwards_first_segment_only "a.b.c" (Fn 7) fresh Hlen)
    as (Hadapter & Hothers).
  split; [exact Hlen|]. split.
  - rewrite Hadapter. reflexivity.
  - apply (Hothers "change a.b"); discriminate.
Defined.

Lemma activations_are_applicable_witness :
  nodeType greeting = 1%Z /\
  bind_visit fresh [] greeting overridden_world =
    Done false (extend overridden_world [AttrBinding [] "class"]) /\
  bind_visit fresh [] repeated overridden_world =
    Done true (extend overridden_world [NamedBinding [] "each" (VFun 9)]) /\
  exists skip evs,
    bind_visit fresh [] repeated overridden_world =
      Done skip (extend overridden_world evs) /\
    forall p k fn, NamedBinding p k fn ∈ evs -> p = [] /\ truthy fn = true.
Proof.
  split; [reflexivity|]. split; [reflexivity|]. split; [reflexivity|].
  destruct (activations_are_applicable fresh [] repeated overridden_world
              eq_refl) as (skip & evs & E & Hsound).
  exists skip, evs. split; [exact E|].
  intros p k fn Hin. by destruct (Hsound p k fn Hin) as (? & _ & _ & _ & ?).
Defined.

Lemma sub_twice_witness :
  let twice := sub "p" (Fn 7) (sub "p" (Fn 7) fresh) in
  events_of (set (inl "p") (VNum 3) twice) (heap fresh_world) =
    [AdapterSet "p" (VNum 3); Emit "change p" [VNum 3];
     Call 7 [VNum 3]; Call 7 [VNum 3]] /\
  listeners "change p" (unsub "p" (Fn 7) twice) = [Fn 7].
Proof.
  intros twice. split; [reflexivity|].
  destruct (sub_twice "p" 7 (VNum 3) fresh fresh_world) as (_ & _ & Honce).
  apply Honce. intros Hin. inversion Hin.
Defined.

End Reactive.
